(** * A model of the miniKanren engine of [src/mini/minikanren.ts]

    Terms, substitutions, the unifier, the goal combinators and the
    relational predicates are embedded as Rocq functions that follow the
    TypeScript source function by function.  Loops that the source does
    not bound (the [while] of [walk], the recursion of [unify], the
    generators) take a [fuel] argument; running out of fuel stands for
    "has not returned yet". *)

From Stdlib Require Import ZArith Lia.
From stdpp Require Import base option list strings pretty gmap.

Local Open Scope Z_scope.
Local Open Scope nat_scope.

(** ** Terms

    The source is untyped: a term is any JavaScript value.  The model keeps
    the values the engine distinguishes: [Var] objects, the atoms, and
    arrays.  A [number] is kept only when it holds an integer (the one kind
    of number the arithmetic predicates accept without a [RangeError]) and
    is distinct from the [bigint] of the same value, as [1 === 1n] is false.
    A [Var] is identified with its [id], and an array with its contents. *)

#[local] Set Warnings "-register-all".

Inductive term : Type :=
| TVar (id : string)        (* new Var(id) *)
| TNum (n : Z)              (* typeof x === "number", Number.isInteger(x) *)
| TBig (n : Z)              (* typeof x === "bigint" *)
| TStr (str : string)
| TBool (b : bool)
| TUndef                    (* undefined *)
| TSeq (elems : list term). (* Array.isArray(x) *)

Section term_induction.
Variable P : term → Prop.
Hypothesis Hvar : ∀ id, P (TVar id).
Hypothesis Hnum : ∀ n, P (TNum n).
Hypothesis Hbig : ∀ n, P (TBig n).
Hypothesis Hstr : ∀ str, P (TStr str).
Hypothesis Hbool : ∀ b, P (TBool b).
Hypothesis Hundef : P TUndef.
Hypothesis Hseq : ∀ elems, Forall P elems → P (TSeq elems).

Fixpoint term_nested_ind (t : term) : P t :=
  match t with
  | TVar id => Hvar id
  | TNum n => Hnum n
  | TBig n => Hbig n
  | TStr str => Hstr str
  | TBool b => Hbool b
  | TUndef => Hundef
  | TSeq elems =>
      Hseq elems
        ((fix all (l : list term) : Forall P l :=
            match l with
            | [] => Forall_nil_2 P
            | x :: l' => Forall_cons_2 P x l' (term_nested_ind x) (all l')
            end) elems)
  end.
End term_induction.

(** Strict equality [===] on modelled values. *)
Fixpoint term_eqb (a b : term) : bool :=
  match a, b with
  | TVar x, TVar y => bool_decide (x = y)
  | TNum m, TNum n => bool_decide (m = n)
  | TBig m, TBig n => bool_decide (m = n)
  | TStr x, TStr y => bool_decide (x = y)
  | TBool x, TBool y => bool_decide (x = y)
  | TUndef, TUndef => true
  | TSeq l, TSeq k =>
      (fix go (l k : list term) : bool :=
         match l, k with
         | [], [] => true
         | x :: l', y :: k' => term_eqb x y && go l' k'
         | _, _ => false
         end) l k
  | _, _ => false
  end.

Lemma term_eqb_eq (a b : term) : term_eqb a b = true ↔ a = b.
Proof.
  revert b. induction a as [x|m|m|x|x| |l IH] using term_nested_ind;
    intros [y|n|n|y|y| |k]; simpl;
    try (split; [discriminate | congruence]);
    try (rewrite bool_decide_eq_true; split; congruence).
  - tauto.
  - revert k. induction IH as [|x l Hx _ IHl]; intros [|y k];
      try (split; [discriminate | congruence]); [tauto|].
    rewrite andb_true_iff, Hx. specialize (IHl k). split.
    + intros [-> Hk]. apply IHl in Hk. congruence.
    + intros [= -> ->]. split; [done|]. by apply IHl.
Qed.

Global Instance term_eq_dec : EqDecision term.
Proof.
  intros a b. destruct (term_eqb a b) eqn:E.
  - left. by apply term_eqb_eq.
  - right. intros H. apply term_eqb_eq in H. congruence.
Defined.

(** ** Substitutions

    A [State] is a frozen object from identifiers to values. *)

Abbreviation State := (gmap string term).

(** [const emptyState = Object.freeze({})] *)
Definition emptyState : State := ∅.

(** [Object.freeze(Object.assign({}, state, bindings))]: the keys of
    [bindings] override those of [state]. *)
Definition extend (state bindings : State) : State := bindings ∪ state.

(** [s.id], the value of a property of a state. *)
Definition get (s : State) (id : string) : term := default TUndef (s !! id).

(** [walk]: the [while (v instanceof Var)] loop.  A key that is absent
    reads as [undefined]; a variable bound to itself stops the loop. *)
Fixpoint walk (fuel : nat) (v : term) (s : State) : option term :=
  match v with
  | TVar id =>
      match fuel with
      | O => None
      | S fuel' =>
          let w := default TUndef (s !! id) in
          if decide (v = w) then Some v else walk fuel' w s
      end
  | _ => Some v
  end.

(** [Array.prototype.map] over a callback that may not return. *)
Fixpoint mapM {A B : Type} (f : A → option B) (l : list A) : option (list B) :=
  match l with
  | [] => Some []
  | x :: l' =>
      match f x with
      | Some y => match mapM f l' with Some ys => Some (y :: ys) | None => None end
      | None => None
      end
  end.

(** [walkRec] *)
Fixpoint walkRec (fuel : nat) (v : term) (s : State) : option term :=
  match fuel with
  | O => None
  | S fuel' =>
      match walk fuel v s with
      | Some (TSeq elems) =>
          match mapM (fun x => walkRec fuel' x s) elems with
          | Some elems' => Some (TSeq elems')
          | None => None
          end
      | r => r
      end
  end.

(** ** The unifier

    A result [None] stands for a call that has not returned, [Some None] for
    the result [undefined] (the terms do not unify). *)

(** The [for] loop of [unify] over two arrays of equal length; [f] is the
    recursive call. *)
Fixpoint unify_elems (f : term → term → State → option (option State))
    (us vs : list term) (t : State) : option (option State) :=
  match us, vs with
  | u :: us', v :: vs' =>
      match f u v t with
      | Some (Some t') => unify_elems f us' vs' t'
      | r => r
      end
  | _, _ => Some (Some t)
  end.

(** [unify] *)
Fixpoint unify (fuel : nat) (u v : term) (s : State) : option (option State) :=
  match fuel with
  | O => None
  | S fuel' =>
      match walk fuel u s, walk fuel v s with
      | Some u', Some v' =>
          if decide (u' = v') then Some (Some s)
          else match u', v' with
               | TVar x, _ => Some (Some (extend s {[x := v']}))
               | _, TVar y => Some (Some (extend s {[y := u']}))
               | TSeq us, TSeq vs =>
                   if decide (length us = length vs)
                   then unify_elems (unify fuel') us vs s
                   else Some None
               | _, _ => Some None
               end
      | _, _ => None
      end
  end.

(** [Array.prototype.some]: stops at the first element that answers true. *)
Fixpoint someM {A : Type} (f : A → option bool) (l : list A) : option bool :=
  match l with
  | [] => Some false
  | x :: l' =>
      match f x with
      | Some true => Some true
      | Some false => someM f l'
      | None => None
      end
  end.

(** [occursCheck]: [x] is compared as it is given, [v] is walked. *)
Fixpoint occursCheck (fuel : nat) (x v : term) (s : State) : option bool :=
  match fuel with
  | O => None
  | S fuel' =>
      match walk fuel v s with
      | Some (TVar y) => Some (bool_decide (x = TVar y))
      | Some (TSeq elems) => someM (fun w => occursCheck fuel' x w s) elems
      | Some _ => Some false
      | None => None
      end
  end.

(** [unifyCheck] *)
Definition unifyCheck (fuel : nat) (u v : term) (s : State)
  : option (option State) :=
  if decide (u = v) then unify fuel u v s
  else match occursCheck fuel u v s with
       | Some true => Some None
       | Some false =>
           match occursCheck fuel v u s with
           | Some true => Some None
           | Some false => unify fuel u v s
           | None => None
           end
       | None => None
       end.

(** ** Streams and goals

    A [Stream] is a generator of states.  The model keeps what its consumer
    observes, pull after pull: a value ([Yield], with the generator as it
    is suspended after that value), the end of the stream ([Done]), an
    exception ([Throw]), or a pull that has not returned within the fuel
    given to the goal ([Diverge]). *)

Inductive error : Type :=
| InstantiationError (msg : string)
| TypeError.                 (* calling [undefined] *)

Inductive stream (A : Type) : Type :=
| Done
| Yield (value : A) (rest : stream A)
| Throw (e : error)
| Diverge.
Arguments Done {A}.
Arguments Yield {A} value rest.
Arguments Throw {A} e.
Arguments Diverge {A}.

Abbreviation Stream := (stream State).

(** A [Goal] takes a state and returns a stream; the first argument is the
    fuel of every loop run while the stream is pulled. *)
Definition Goal : Type := nat → State → Stream.
Definition GoalConstructor : Type := State → Goal.

(** The [n]-th value pulled from a stream, counting from 0. *)
Fixpoint pull {A : Type} (n : nat) (st : stream A) {struct st} : option A :=
  match st with
  | Yield value rest => match n with O => Some value | S n' => pull n' rest end
  | _ => None
  end.

(** [yield* a] followed by the rest of the generator body, [b]. *)
Fixpoint append {A : Type} (a b : stream A) : stream A :=
  match a with
  | Done => b
  | Yield value rest => Yield value (append rest b)
  | Throw e => Throw e
  | Diverge => Diverge
  end.

(** [for (const x of st) yield* body(x)] *)
Fixpoint bind {A B : Type} (st : stream A) (body : A → stream B) : stream B :=
  match st with
  | Done => Done
  | Yield x rest => append (body x) (bind rest body)
  | Throw e => Throw e
  | Diverge => Diverge
  end.

(** [succeed] and [fail] *)
Definition succeed : Goal := fun _ s => Yield s Done.
Definition fail : Goal := fun _ _ => Done.

(** [identical(u, v)] *)
Definition identical (u v : term) : Goal := fun fuel s =>
  match unify fuel u v s with
  | Some (Some t) => Yield t Done
  | Some None => Done
  | None => Diverge
  end.

(** [identicalCheck(u, v)] *)
Definition identicalCheck (u v : term) : Goal := fun fuel s =>
  match unifyCheck fuel u v s with
  | Some (Some t) => Yield t Done
  | Some None => Done
  | None => Diverge
  end.

(** [conj(...goals)].  The source returns [conj] of the remaining goals when
    the first goal is the [succeed] object, and [fail] when it is the [fail]
    object; the generator of the general case yields the same streams for
    these two, so the model has the general case only. *)
Fixpoint conj (goals : list Goal) : Goal :=
  match goals with
  | [] => succeed
  | [goal] => goal
  | goal :: goals' => fun fuel s => bind (goal fuel s) (conj goals' fuel)
  end.

(** [disj(...goals)] *)
Definition disj (goals : list Goal) : Goal :=
  match goals with
  | [] => fail
  | [goal] => goal
  | _ => fun fuel s => foldr (fun goal rest => append (goal fuel s) rest) Done goals
  end.

(** The loop shared by the generators of [disji] and [condi]:
    [while (iters.length > 0) for (let i = 0; i < iters.length;) ...],
    entered at index [i]. *)
Fixpoint roundRobin {A : Type} (fuel : nat) (iters : list (stream A)) (i : nat)
  : stream A :=
  match fuel with
  | O => Diverge
  | S fuel' =>
      match iters !! i with
      | None =>
          match iters with
          | [] => Done
          | _ => roundRobin fuel' iters 0
          end
      | Some Done => roundRobin fuel' (delete i iters) i      (* iters.splice(i, 1) *)
      | Some (Yield value rest) =>
          Yield value (roundRobin fuel' (<[i := rest]> iters) (S i))
      | Some (Throw e) => Throw e
      | Some Diverge => Diverge
      end
  end.

(** [disji(...goals)] *)
Definition disji (goals : list Goal) : Goal :=
  match goals with
  | [] => fail
  | [goal] => goal
  | _ => fun fuel s => roundRobin fuel (map (fun goal => goal fuel s) goals) 0
  end.

(** [callFresh(id, gc)] *)
Definition callFresh (id : string) (gc : GoalConstructor) : Goal := fun fuel s =>
  let s := extend s {[id := TVar id]} in
  gc s fuel s.

(** [fresh(ids, gc)], with the identifiers passed by the caller. *)
Definition fresh (ids : list string) (gc : GoalConstructor) : Goal :=
  let vars : State := list_to_map ((fun id => (id, TVar id)) <$> ids) in
  fun fuel s0 =>
    let s := extend s0 vars in
    gc s fuel s.

(** [delay(fn, ...args)] *)
Definition delay {A : Type} (fn : A → Goal) (args : A) : Goal := fun fuel t =>
  fn args fuel t.

(** The generator of [take(count, goal)].  [count] is a variable of the goal
    object: every pull of every run decrements it.  A run that is pulled to
    its end returns, with its stream, the count that it leaves behind. *)
Fixpoint take_loop (count : nat) (iter : Stream) : Stream * nat :=
  match count with
  | O => (Done, O)
  | S count' =>
      match iter with
      | Done => (Done, count')
      | Yield value rest =>
          let '(st, count'') := take_loop count' rest in
          (Yield value st, count'')
      | Throw e => (Throw e, count')
      | Diverge => (Diverge, count')
      end
  end.

(** [take(count, goal)], called on [s] and pulled to its end. *)
Definition take (count : nat) (goal : Goal) (fuel : nat) (s : State)
  : Stream * nat :=
  take_loop count (goal fuel s).

(** A clause of [conde], [condi], [conda], [condu]: a goal or an array of
    goals.  An array is held by its current contents. *)
Inductive clause : Type :=
| Bare (goal : Goal)
| Arr (goals : list Goal).

(** [Array.isArray(g) ? conj(...g) : g] *)
Definition clause_goal (c : clause) : Goal :=
  match c with
  | Bare goal => goal
  | Arr goals => conj goals
  end.

(** [conde(...goals)] *)
Definition conde (goals : list clause) : Goal :=
  match goals with
  | [] => fail
  | [c] => clause_goal c
  | _ => fun fuel s =>
      foldr (fun c rest => append (clause_goal c fuel s) rest) Done goals
  end.

(** [condi(...goals)] *)
Definition condi (goals : list clause) : Goal :=
  match goals with
  | [] => fail
  | [c] => clause_goal c
  | _ => fun fuel s => roundRobin fuel (map (fun c => clause_goal c fuel s) goals) 0
  end.

(** The [for (const goal of goals)] loop of the generator of [conda]. *)
Fixpoint conda_loop (goals : list clause) (fuel : nat) (s : State) : Stream :=
  match goals with
  | [] => Done
  | Arr [] :: _ => Throw TypeError                      (* goal[0] is undefined *)
  | Arr (head :: tail) :: goals' =>
      match head fuel s with                            (* iter.next() *)
      | Done => conda_loop goals' fuel s
      | Yield value iter =>
          let rest := conj tail in
          append (rest fuel value) (bind iter (rest fuel))
      | Throw e => Throw e
      | Diverge => Diverge
      end
  | Bare goal :: goals' =>
      match goal fuel s with                            (* goal(s).next() *)
      | Done => conda_loop goals' fuel s
      | Yield value _ => Yield value Done
      | Throw e => Throw e
      | Diverge => Diverge
      end
  end.

(** [conda(...goals)] *)
Definition conda (goals : list clause) : Goal :=
  match goals with
  | [] => fail
  | [c] => clause_goal c
  | _ => conda_loop goals
  end.

(** The generator of [condu].  [goal.shift()] removes the head from the
    caller's array, so a run returns, with the stream, the contents of the
    clause arrays as the run leaves them. *)
Fixpoint condu_loop (goals : list clause) (fuel : nat) (s : State)
  : Stream * list clause :=
  match goals with
  | [] => (Done, [])
  | Arr [] :: goals' =>                                  (* continue *)
      let '(st, goals'') := condu_loop goals' fuel s in
      (st, Arr [] :: goals'')
  | Arr (head :: tail) :: goals' =>
      match head fuel s with
      | Done =>
          let '(st, goals'') := condu_loop goals' fuel s in
          (st, Arr tail :: goals'')
      | Yield value _ => (conj tail fuel value, Arr tail :: goals')
      | Throw e => (Throw e, Arr tail :: goals')
      | Diverge => (Diverge, Arr tail :: goals')
      end
  | Bare goal :: goals' =>
      match goal fuel s with
      | Done =>
          let '(st, goals'') := condu_loop goals' fuel s in
          (st, Bare goal :: goals'')
      | Yield value _ => (Yield value Done, goals)
      | Throw e => (Throw e, goals)
      | Diverge => (Diverge, goals)
      end
  end.

(** [condu(...goals)], called on [s] and pulled to its end. *)
Definition condu (goals : list clause) (fuel : nat) (s : State)
  : Stream * list clause :=
  match goals with
  | [] => (Done, [])
  | _ => condu_loop goals fuel s
  end.

(** ** Arithmetic *)

(** A goal constructor of the library returns a goal or throws. *)
Inductive result (A : Type) : Type :=
| Ok (a : A)
| Raise (e : error).
Arguments Ok {A} a.
Arguments Raise {A} e.

(** [typeof x === "number" || typeof x === "bigint"], with [BigInt(x)]. *)
Definition BigInt (x : term) : option Z :=
  match x with
  | TNum n | TBig n => Some n
  | _ => None
  end.

(** [Var.isVar] *)
Definition isVar (x : term) : bool :=
  match x with TVar _ => true | _ => false end.

(** [pluso(a, b, c)] *)
Definition pluso (a b c : term) : result Goal :=
  match BigInt a with
  | Some na =>
      match BigInt b with
      | Some nb =>
          match BigInt c with
          | Some nc => Ok (if decide (na + nb = nc)%Z then succeed else fail)
          | None =>
              if isVar c then Ok (identical c (TBig (na + nb)))
              else Raise (InstantiationError "Instantiation Error")
          end
      | None =>
          match isVar b, BigInt c with
          | true, Some nc => Ok (identical b (TBig (nc - na)))
          | _, _ => Raise (InstantiationError "Instantiation Error")
          end
      end
  | None =>
      match isVar a, BigInt b, BigInt c with
      | true, Some nb, Some nc => Ok (identical a (TBig (nc - nb)))
      | _, _, _ => Raise (InstantiationError "Instantiation Error")
      end
  end.

(** ** Generators over shared arrays

    [varList] yields one and the same array again and again and pushes onto
    it between two yields, and some predicates store that array in the
    states they yield.  For these the model keeps a heap of arrays: a slot
    of a yielded state holds a value or a reference to an array of the
    heap, and a generator is resumed with the heap as it is then. *)

Inductive slot : Type :=
| Val (t : term)
| Ref (a : nat).

Abbreviation HState := (gmap string slot).

Record heap : Type := Heap {
  arrays : list (list term);   (* the arrays created so far *)
  uuids : nat                  (* calls of crypto.randomUUID() so far *)
}.

Definition emptyHeap : heap := Heap [] 0.

(** A new array with the elements [l]. *)
Definition alloc (l : list term) (h : heap) : nat * heap :=
  (length (arrays h), Heap (arrays h ++ [l]) (uuids h)).

(** [a.push(t)] *)
Definition push (a : nat) (t : term) (h : heap) : heap :=
  Heap (alter (fun l => l ++ [t]) a (arrays h)) (uuids h).

Definition contents (h : heap) (a : nat) : list term :=
  default [] (arrays h !! a).

(** What a reader of the state [s] sees when the heap is [h]. *)
Definition observe (h : heap) (s : HState) : State :=
  (fun sl => match sl with Val t => t | Ref a => TSeq (contents h a) end) <$> s.

(** A state without shared arrays. *)
Definition lift (s : State) : HState := Val <$> s.

(** A generator, as far as the fuel reaches: it has returned, it is
    suspended at a [yield] and will be resumed with the heap of that time,
    it has thrown, or it has not come back. *)
Inductive gen (A : Type) : Type :=
| GDone (h : heap)
| GYield (value : A) (h : heap) (resume : heap → gen A)
| GThrow (e : error)
| GDiverge.
Arguments GDone {A} h.
Arguments GYield {A} value h resume.
Arguments GThrow {A} e.
Arguments GDiverge {A}.

Definition HGoal : Type := nat → State → heap → gen HState.

(** The [n]-th value pulled, counting from 0, and the heap at that moment,
    for a consumer that leaves the heap alone. *)
Fixpoint gpull {A : Type} (n : nat) (g : gen A) {struct g}
  : option (A * heap) :=
  match g with
  | GYield value h resume =>
      match n with
      | O => Some (value, h)
      | S n' => gpull n' (resume h)
      end
  | _ => None
  end.

(** [yield* g] followed by the rest of the body. *)
Fixpoint gappend {A : Type} (g : gen A) (rest : heap → gen A) : gen A :=
  match g with
  | GDone h => rest h
  | GYield value h resume => GYield value h (fun h' => gappend (resume h') rest)
  | GThrow e => GThrow e
  | GDiverge => GDiverge
  end.

(** [for (const x of g) body(x)] *)
Fixpoint for_of {A B : Type} (g : gen A) (body : A → heap → gen B) : gen B :=
  match g with
  | GDone h => GDone h
  | GYield x h resume => gappend (body x h) (fun h' => for_of (resume h') body)
  | GThrow e => GThrow e
  | GDiverge => GDiverge
  end.

(** A goal that shares no array, run where arrays are shared. *)
Fixpoint gen_of (st : Stream) (h : heap) : gen HState :=
  match st with
  | Done => GDone h
  | Yield s rest => GYield (lift s) h (gen_of rest)
  | Throw e => GThrow e
  | Diverge => GDiverge
  end.

Definition hgoal (goal : Goal) : HGoal := fun fuel s h => gen_of (goal fuel s) h.

Section shared_arrays.
(** [randomUUID k]: what the [k]-th call of [crypto.randomUUID()] returns. *)
Variable randomUUID : nat → string.

(** [new Var()] *)
Definition newVar (h : heap) : term * heap :=
  (TVar (randomUUID (uuids h)), Heap (arrays h) (S (uuids h))).

(** [varList(result)], on the array [result]. *)
Fixpoint varList (fuel : nat) (result : nat) (h : heap) : gen nat :=
  match fuel with
  | O => GDiverge
  | S fuel' =>
      GYield result h (fun h' =>
        let '(v, h1) := newVar h' in
        varList fuel' result (push result v h1))
  end.

(** [listo(x)] *)
Definition listo (x : term) : HGoal :=
  match x with
  | TVar _ => fun fuel s h =>
      match walk fuel x s with
      | Some (TVar vid) =>
          let '(vars0, h1) := alloc [] h in
          for_of (varList fuel vars0 h1) (fun vars h' =>
            GYield (<[vid := Ref vars]> (lift s)) h' GDone)
      | Some (TSeq _) => GYield (lift s) h GDone
      | Some _ => GDone h
      | None => GDiverge
      end
  | TSeq _ => hgoal succeed
  | _ => hgoal fail
  end.

(** The generator of [membero(el, list)] for an array [list]. *)
Fixpoint membero_elems (el : term) (list : list term) (fuel : nat) (s : State)
    (h : heap) : gen HState :=
  match list with
  | [] => GDone h
  | x :: list' =>
      match unify fuel el x s with
      | Some (Some t) => GYield (lift t) h (membero_elems el list' fuel s)
      | Some None => membero_elems el list' fuel s h
      | None => GDiverge
      end
  end.

(** [membero(el, list)] *)
Definition membero (el list : term) : HGoal :=
  match list with
  | TVar id => fun fuel s h =>
      match walk fuel list s with
      | Some (TVar _) =>
          let '(result0, h1) := alloc [el] h in
          for_of (varList fuel result0 h1) (fun result h' =>
            GYield (<[id := Ref result]> (lift s)) h' GDone)
      | Some (TSeq l) => membero_elems el l fuel s h
      | Some _ => GDone h
      | None => GDiverge
      end
  | TSeq l => membero_elems el l
  | _ => hgoal fail
  end.

(** [identical(list, vars)(s)] for the array [vars] of [varList]: a
    variable is bound to the array itself; against any other value the
    array counts by its elements. *)
Definition identical_shared (list : term) (vars : nat) : HGoal :=
  fun fuel s h =>
    match fuel with
    | O => GDiverge
    | S _ =>
        match walk fuel list s with
        | Some (TVar id) => GYield (<[id := Ref vars]> (lift s)) h GDone
        | Some _ => gen_of (identical list (TSeq (contents h vars)) fuel s) h
        | None => GDiverge
        end
    end.

(** [Array.from({ length: n }, () => new Var())] *)
Fixpoint newVars (n : nat) (h : heap) : list term * heap :=
  match n with
  | O => ([], h)
  | S n' =>
      let '(v, h1) := newVar h in
      let '(vs, h2) := newVars n' h1 in
      (v :: vs, h2)
  end.

(** [list[n]] for an integer [n]; [undefined] out of range. *)
Definition at_index (list : list term) (k : Z) : term :=
  if decide (0 ≤ k)%Z then default TUndef (list !! Z.to_nat k) else TUndef.

(** The loop [for (let i = 0; i < list.length; ++i)] of [ntho] for a
    variable [n], an array [list] and a variable [el], from index [i] on. *)
Fixpoint ntho_scan_var (n el : term) (rest : list term) (i : nat)
    (fuel : nat) (s : State) (h : heap) : gen HState :=
  match rest with
  | [] => GDone h
  | x :: rest' =>
      gappend
        (gen_of (conj [identical n (TNum (Z.of_nat i)); identical el x] fuel s) h)
        (ntho_scan_var n el rest' (S i) fuel s)
  end.

(** The same loop for an [el] that is not a variable. *)
Fixpoint ntho_scan (nid : string) (el : term) (rest : list term) (i : nat)
    (s : State) (h : heap) : gen HState :=
  match rest with
  | [] => GDone h
  | x :: rest' =>
      if decide (x = el)
      then GYield (lift (extend s {[nid := TNum (Z.of_nat i)]})) h
             (ntho_scan nid el rest' (S i) s)
      else ntho_scan nid el rest' (S i) s h
  end.

(** The generator of [ntho] for a variable [n] and a variable [list]. *)
Definition ntho_vars (nid lid : string) (el : term) : HGoal := fun fuel s h =>
  let '(tail0, h1) := alloc [el] h in
  for_of (varList fuel tail0 h1) (fun tail h' =>
    let '(head0, h2) := alloc [] h' in
    for_of (varList fuel head0 h2) (fun head h'' =>
      let hd := contents h'' head in
      let tl := contents h'' tail in
      GYield
        (lift (extend s
           (<[nid := TNum (Z.of_nat (length hd + length tl))]>
              {[lid := TSeq (hd ++ tl)]})))
        h'' GDone)).

(** [ntho(n, list, el)] *)
Definition ntho (n list el : term) : result HGoal :=
  match BigInt n, n with
  | Some k, _ =>
      match list with
      | TSeq l =>
          if isVar el then
            if decide (0 ≤ k < Z.of_nat (length l))%Z
            then Ok (hgoal (identical el (at_index l k)))
            else Ok (hgoal fail)
          else if decide (el = at_index l k) then Ok (hgoal succeed)
          else Ok (hgoal fail)
      | TVar _ => Ok (fun fuel s h =>
          match n with
          | TBig _ => GThrow TypeError      (* the length of Array.from *)
          | _ =>
              let '(vs, h1) := newVars (Z.to_nat k) h in
              let '(result, h2) := alloc (vs ++ [el]) h1 in
              for_of (varList fuel result h2) (fun vars h' =>
                identical_shared list vars fuel s h')
          end)
      | _ => Raise (InstantiationError "ntho")
      end
  | None, TVar nid =>
      match list with
      | TSeq l =>
          if isVar el then Ok (ntho_scan_var n el l 0)
          else Ok (fun _ => ntho_scan nid el l 0)
      | TVar lid => Ok (ntho_vars nid lid el)
      | _ => Raise (InstantiationError "ntho")
      end
  | None, _ => Raise (InstantiationError "ntho")
  end.
End shared_arrays.

(** ** Goals of the test suite

    [fives] and [sixes] of [minikanren.spec.ts] never end; [depth] bounds
    how often the recursive call is unfolded. *)
Fixpoint fives_upto (depth : nat) (s : State) : Goal :=
  match depth with
  | O => fun _ _ => Diverge
  | S depth' =>
      disj [identical (get s "x") (TNum 5);
            delay (fives_upto depth') s]
  end.

Definition fives : GoalConstructor := fun s fuel t => fives_upto fuel s fuel t.

Fixpoint sixes_upto (depth : nat) (s : State) : Goal :=
  match depth with
  | O => fun _ _ => Diverge
  | S depth' => fun fuel s1 =>
      append (identical (get s "x") (TNum 6) fuel s1)
             (sixes_upto depth' s fuel s1)
  end.

Definition sixes : GoalConstructor := fun s fuel s1 => sixes_upto fuel s fuel s1.

(** [teacupo] *)
Definition teacupo (x : term) : Goal :=
  conde [Bare (identical (TStr "tea") x); Bare (identical (TStr "cup") x);
         Bare fail].

(** ** Resolution and structural equality

    [walks s a r]: the loop of [walk(a, s)] returns [r]. *)
Definition walks (s : State) (a r : term) : Prop :=
  ∃ fuel, walk fuel a s = Some r.

(** Two terms are structurally equal after resolution in [s] when [walk]
    resolves both to the very same value (the same variable, equal atoms,
    one and the same sequence), or to two sequences whose corresponding
    elements are, in turn, structurally equal after resolution in [s]. *)
Inductive struct_eq (s : State) : term → term → Prop :=
| struct_eq_same a b r :
    walks s a r → walks s b r → struct_eq s a b
| struct_eq_seq a b us vs :
    walks s a (TSeq us) → walks s b (TSeq vs) →
    struct_eq_elems s us vs → struct_eq s a b
with struct_eq_elems (s : State) : list term → list term → Prop :=
| struct_eq_nil : struct_eq_elems s [] []
| struct_eq_cons a b us vs :
    struct_eq s a b → struct_eq_elems s us vs →
    struct_eq_elems s (a :: us) (b :: vs).

Scheme struct_eq_mut := Minimality for struct_eq Sort Prop
  with struct_eq_elems_mut := Minimality for struct_eq_elems Sort Prop.

(** One binding made by the unifier: a variable that is still bound to
    itself is bound to a resolved value other than itself. *)
Definition binds (s s' : State) : Prop :=
  ∃ x r, s !! x = Some (TVar x) ∧ r ≠ TVar x ∧ walk 1 r s = Some r ∧
         s' = <[x := r]> s.

(** ** Committed choice

    The head of the clause [c] yields nothing on [s]. *)
Definition head_fails (fuel : nat) (s : State) (c : clause) : Prop :=
  match c with
  | Bare goal => goal fuel s = Done
  | Arr (head :: _) => head fuel s = Done
  | Arr [] => False
  end.

(** ** Round-robin order

    [returns n st]: each of the first [n] pulls of [st] returns, with a
    value or with the end of the stream. *)
Fixpoint returns {A : Type} (n : nat) (st : stream A) : Prop :=
  match n, st with
  | O, _ => True
  | S _, Done => True
  | S n', Yield _ rest => returns n' rest
  | S _, _ => False
  end.

(** Round [r] of a round-robin over [iters] takes the [r]-th value of every
    clause that still has one, in the order of the clauses; the rounds
    follow one another. *)
Definition nth_round {A : Type} (r : nat) (iters : list (stream A)) : list A :=
  omap (pull r) iters.

Definition round_robin_order {A : Type} (n : nat) (iters : list (stream A))
  : list A :=
  mjoin ((fun r => nth_round r iters) <$> seq 0 n).


(** The values of one round, and the generators left after it. *)
Definition heads {A : Type} (iters : list (stream A)) : list A :=
  nth_round 0 iters.

Definition tails {A : Type} (iters : list (stream A)) : list (stream A) :=
  omap (fun it => match it with Yield _ rest => Some rest | _ => None end) iters.

(** [prepend l st] yields the values of [l], then goes on as [st]. *)
Definition prepend {A : Type} (l : list A) (st : stream A) : stream A :=
  foldr Yield st l.

(** The stream of [disji] and [condi] over the clause streams [iters]. *)
Definition interleaved {A : Type} (fuel : nat) (iters : list (stream A))
  : stream A :=
  match iters with
  | [] => Done
  | [it] => it
  | _ => roundRobin fuel iters 0
  end.

(** ** The heap of a running [varList] *)

(** The heap after [varList], on the array [a], has been resumed [n] times. *)
Fixpoint pushes (randomUUID : nat → string) (n : nat) (a : nat) (h : heap)
  : heap :=
  match n with
  | O => h
  | S n' =>
      let '(v, h1) := newVar randomUUID h in
      pushes randomUUID n' a (push a v h1)
  end.

(** The variables made by [n] calls of [new Var()], from the [k]-th call of
    [crypto.randomUUID()] on. *)
Definition freshVars (randomUUID : nat → string) (k n : nat) : list term :=
  (fun i => TVar (randomUUID i)) <$> seq k n.


(** ** Reading a generator

    The states that the first [n] pulls of a generator yield, each as its
    reader sees it at the moment of the yield. *)
Fixpoint observed (n : nat) (g : gen HState) {struct g} : list State :=
  match g with
  | GYield value h resume =>
      match n with
      | O => []
      | S n' => observe h value :: observed n' (resume h)
      end
  | _ => []
  end.

(** Whether the generator has returned after [n] values. *)
Fixpoint ended (n : nat) (g : gen HState) {struct g} : bool :=
  match g with
  | GDone _ => match n with O => true | S _ => false end
  | GYield _ h resume => match n with O => false | S n' => ended n' (resume h) end
  | _ => false
  end.

(** ** Ground terms and occurrences *)

(** [isGround]: not a variable, and no variable inside. *)
Fixpoint isGround (x : term) : bool :=
  match x with
  | TVar _ => false
  | TSeq elems => forallb isGround elems
  | _ => true
  end.


(** ** Committed choice, once more *)



(** [callFresh] nested once for each identifier, the first outermost. *)
Fixpoint callFresh_each (ids : list string) (gc : GoalConstructor) : Goal :=
  match ids with
  | [] => fun fuel s => gc s fuel s
  | id :: ids' => callFresh id (fun _ => callFresh_each ids' gc)
  end.

(** ** Streams that end *)

(** The values of a stream that ends, in order. *)
Fixpoint values {A : Type} (st : stream A) : option (list A) :=
  match st with
  | Done => Some []
  | Yield value rest => cons value <$> values rest
  | _ => None
  end.

(** ** Type predicates *)

(** [typeof x === "number" || typeof x === "bigint"] *)
Definition isNumber (x : term) : bool :=
  match x with
  | TNum _ | TBig _ => true
  | _ => false
  end.

(** [numbero(u)] *)
Definition numbero (u : term) : Goal :=
  match u with
  | TVar _ => fun fuel s =>
      match walk fuel u s with
      | Some v => if isNumber v then Yield s Done else Done
      | None => Diverge
      end
  | _ => if isNumber u then succeed else fail
  end.

(** [filter(pred)(x)] *)
Definition filter (pred : term → bool) (x : term) : Goal :=
  if isVar x then fun _ s => if pred x then Yield s Done else Done
  else if pred x then succeed
  else fail.

(** [groundo] *)
Definition groundo : term → Goal := filter isGround.

(** ** Lists *)

(** [conso(car, cdr, list)] *)
Definition conso (car cdr list : term) : result Goal :=
  match cdr with
  | TSeq ds => Ok (identical (TSeq (car :: ds)) list)
  | TVar _ => Ok (fun fuel s =>
      match walk fuel cdr s, walk fuel list s with
      | Some d, Some l =>
          match d, l with
          | TVar _, TSeq ls =>
              conj [identical car (default TUndef (head ls));    (* l[0] *)
                    identical d (TSeq (tail ls))] fuel s         (* l.slice(1) *)
          | TSeq ds, TVar _ => identical l (TSeq (car :: ds)) fuel s
          | _, _ => Throw (InstantiationError "conso")
          end
      | _, _ => Diverge
      end)
  | _ => Raise (InstantiationError "conso")
  end.

(** [appendo(prefix, suffix, list)] for a [list] that is an array. *)
Definition appendo_array (prefix suffix : term) (list : list term) : Goal :=
  match prefix, suffix with
  | TSeq ps, TSeq ss => identical (TSeq (ps ++ ss)) (TSeq list)
  | TSeq ps, TVar _ =>
      conj [identical (TSeq (firstn (length ps) list)) prefix;
            identical (TSeq (skipn (length ps) list)) suffix]
  | TVar _, TSeq ss =>
      if decide (length list < length ss) then fail
      else
        let start := length list - length ss in
        fun fuel s =>
          match unify_elems (unify fuel) (skipn start list) ss s with
          | Some (Some t) => identical prefix (TSeq (firstn start list)) fuel t
          | Some None => Done
          | None => Diverge
          end
  | TVar pid, TVar sid => fun _ s =>
      prepend
        ((fun i => extend s (<[sid := TSeq (skipn i list)]>
                               {[pid := TSeq (firstn i list)]}))
           <$> seq 0 (S (length list)))
        Done
  | _, _ => fail
  end.

Section shared_arrays_lists.
Variable randomUUID : nat → string.

(** [firsto(u, v)] *)
Definition firsto (u v : term) : HGoal :=
  match v with
  | TVar _ => fun fuel s h =>
      let '(vars0, h1) := alloc [u] h in
      for_of (varList randomUUID fuel vars0 h1) (fun vars h' =>
        identical_shared v vars fuel s h')
  | TSeq (x :: _) => hgoal (identical u x)
  | _ => hgoal fail
  end.

(** [lasto(u, v)] *)
Definition lasto (u v : term) : HGoal :=
  match v with
  | TVar _ => fun fuel s h =>
      let '(vars0, h1) := alloc [] h in
      for_of (varList randomUUID fuel vars0 h1) (fun vars h' =>
        gen_of (identical v (TSeq (contents h' vars ++ [u])) fuel s) h')
  | TSeq l =>
      match last l with
      | Some x => hgoal (identical u x)
      | None => hgoal fail
      end
  | _ => hgoal fail
  end.
End shared_arrays_lists.


(** The loop [let len = 0n; for (const t of g) { yield extend(t, {[le]: len});
    len++ }] of [lengtho], with the counter passed along. *)
Fixpoint lengtho_loop (g : gen HState) (le : string) (len : Z) : gen HState :=
  match g with
  | GDone h => GDone h
  | GYield t h resume =>
      GYield (<[le := Val (TBig len)]> t) h
        (fun h' => lengtho_loop (resume h') le (len + 1)%Z)
  | GThrow e => GThrow e
  | GDiverge => GDiverge
  end.

Section shared_arrays_length.
Variable randomUUID : nat → string.

(** The generator of [lengtho(list, length)] for two variables.  When one
    of them is bound it runs [lengtho(list, length)(s)], the same generator
    on the same state, once more. *)
Fixpoint lengtho_vars (fuel : nat) (list length : term) (s : State) (h : heap)
  : gen HState :=
  match fuel with
  | O => GDiverge
  | S fuel' =>
      match walk fuel list s, walk fuel length s with
      | Some (TVar _), Some (TVar le) =>
          lengtho_loop (listo randomUUID list fuel s h) le 0
      | Some _, Some _ => lengtho_vars fuel' list length s h
      | _, _ => GDiverge
      end
  end.
End shared_arrays_length.

(** ** Facts about [walk] *)

Lemma walk_mono fuel fuel' a s r :
  walk fuel a s = Some r → fuel ≤ fuel' → walk fuel' a s = Some r.
Proof.
  revert fuel' a. induction fuel as [|fuel IH]; intros fuel' a H Hle.
  - destruct a; simpl in H; try discriminate; by destruct fuel'.
  - destruct fuel' as [|fuel']; [lia|].
    destruct a; simpl in *; try done.
    case_decide; [done|]. apply IH; [done|lia].
Qed.


Lemma walk_var_inv fuel a s x :
  walk fuel a s = Some (TVar x) → s !! x = Some (TVar x).
Proof.
  revert a. induction fuel as [|fuel IH]; intros a H;
    destruct a; simpl in H; try discriminate.
  case_decide as E; [|by eapply IH].
  injection H as ->. destruct (s !! x); simpl in E; congruence.
Qed.

Lemma walk_fixed fuel a s r : walk fuel a s = Some r → walk 1 r s = Some r.
Proof.
  intros H. destruct r; try done.
  apply walk_var_inv in H. simpl. rewrite H. simpl. by rewrite decide_True.
Qed.

Lemma walks_nonvar s a : (∀ x, a ≠ TVar x) → walks s a a.
Proof. intros H. exists 0. destruct a; try done. by destruct (H id). Qed.

(** ** A binding preserves what was resolved before *)

Lemma walk_binds fuel a s x r0 r :
  s !! x = Some (TVar x) → r0 ≠ TVar x → walk 1 r0 s = Some r0 →
  walk fuel a s = Some r →
  walks (<[x := r0]> s) a (if decide (r = TVar x) then r0 else r).
Proof.
  intros Hx Hne Hr0. revert a.
  assert (Hfix : walk 1 r0 (<[x := r0]> s) = Some r0).
  { destruct r0 as [y| | | | | |]; try done.
    assert (y ≠ x) by congruence.
    apply walk_var_inv in Hr0. simpl. rewrite lookup_insert_ne by done.
    rewrite Hr0. simpl. by rewrite decide_True. }
  induction fuel as [|fuel IH]; intros a H.
  - destruct a; simpl in H; try discriminate;
      injection H as <-; (rewrite decide_False by done); by exists 0.
  - destruct a as [y| | | | | |]; simpl in H;
      try (injection H as <-; rewrite decide_False by done; by exists 0).
    case_decide as E.
    + injection H as <-. destruct (decide (y = x)) as [->|Hyx].
      * rewrite decide_True by done. exists 2. simpl.
        rewrite lookup_insert_eq. simpl. rewrite decide_False by congruence.
        exact Hfix.
      * rewrite decide_False by congruence. exists 1. simpl.
        rewrite lookup_insert_ne by done. rewrite <- E. by rewrite decide_True.
    + assert (y ≠ x) as Hyx.
      { intros ->. rewrite Hx in E. by apply E. }
      destruct (IH _ H) as [f Hf]. exists (S f). simpl.
      rewrite lookup_insert_ne by done. by rewrite decide_False.
Qed.

Lemma walks_binds_same s s' a b r :
  binds s s' → walks s a r → walks s b r →
  ∃ r', walks s' a r' ∧ walks s' b r'.
Proof.
  intros (x & r0 & Hx & Hne & Hr0 & ->) [fa Ha] [fb Hb].
  eexists. split; eapply walk_binds; eauto.
Qed.

Lemma walks_binds_seq s s' a us :
  binds s s' → walks s a (TSeq us) → walks s' a (TSeq us).
Proof.
  intros (x & r0 & Hx & Hne & Hr0 & ->) [fa Ha].
  pose proof (walk_binds _ _ _ _ _ _ Hx Hne Hr0 Ha) as H.
  by rewrite decide_False in H.
Qed.

Lemma struct_eq_binds s s' a b :
  binds s s' → struct_eq s a b → struct_eq s' a b.
Proof.
  intros Hb H. revert a b H.
  apply (struct_eq_mut s (fun a b => struct_eq s' a b)
           (fun us vs => struct_eq_elems s' us vs)).
  - intros a b r Ha Hb'.
    destruct (walks_binds_same _ _ _ _ _ Hb Ha Hb') as (r' & ? & ?).
    by eapply struct_eq_same.
  - intros a b us vs Ha Hb' _ IH.
    eapply struct_eq_seq; eauto using walks_binds_seq.
  - constructor.
  - intros. by constructor.
Qed.

Lemma struct_eq_elems_binds s s' us vs :
  binds s s' → struct_eq_elems s us vs → struct_eq_elems s' us vs.
Proof.
  intros Hb. induction 1; constructor; eauto using struct_eq_binds.
Qed.

Lemma struct_eq_extends s s' a b :
  rtc binds s s' → struct_eq s a b → struct_eq s' a b.
Proof. induction 1; eauto using struct_eq_binds. Qed.

Lemma struct_eq_elems_extends s s' us vs :
  rtc binds s s' → struct_eq_elems s us vs → struct_eq_elems s' us vs.
Proof. induction 1; eauto using struct_eq_elems_binds. Qed.

Lemma walks_seq_extends s s' a us :
  rtc binds s s' → walks s a (TSeq us) → walks s' a (TSeq us).
Proof. induction 1; eauto using walks_binds_seq. Qed.

(** ** The unifier only adds bindings, and makes its arguments equal *)

Lemma extend_singleton (s : State) x r : extend s {[x := r]} = <[x := r]> s.
Proof. unfold extend. by rewrite insert_union_singleton_l. Qed.

Lemma unify_elems_sound f :
  (∀ u v t t', f u v t = Some (Some t') → rtc binds t t' ∧ struct_eq t' u v) →
  ∀ us vs t t', length us = length vs →
    unify_elems f us vs t = Some (Some t') →
    rtc binds t t' ∧ struct_eq_elems t' us vs.
Proof.
  intros Hf us. induction us as [|u us IH]; intros [|v vs] t t' Hlen H;
    simpl in *; try discriminate.
  - injection H as <-. split; [done | constructor].
  - destruct (f u v t) as [[t1|]|] eqn:E; try discriminate.
    apply Hf in E as [Hb He].
    apply IH in H as [Hb' He']; [|lia]. split.
    + by etrans.
    + constructor; eauto using struct_eq_extends.
Qed.

Lemma unify_sound fuel u v s s' :
  unify fuel u v s = Some (Some s') → rtc binds s s' ∧ struct_eq s' u v.
Proof.
  revert u v s s'. induction fuel as [|fuel IH]; intros u v s s' H;
    [discriminate|].
  cbn [unify] in H.
  destruct (walk (S fuel) u s) as [u'|] eqn:Hu; [|discriminate].
  destruct (walk (S fuel) v s) as [v'|] eqn:Hv; [|discriminate].
  case_decide as E.
  { injection H as <-. subst v'. split; [done|].
    eapply struct_eq_same; by eexists. }
  assert (Hl : ∀ x, u' = TVar x →
               rtc binds s (<[x := v']> s) ∧ struct_eq (<[x := v']> s) u v).
  { intros x ->.
    pose proof (walk_var_inv _ _ _ _ Hu) as Hx.
    pose proof (walk_fixed _ _ _ _ Hv) as Hfix.
    assert (v' ≠ TVar x) as Hne by congruence.
    split.
    - apply rtc_once. by exists x, v'.
    - apply struct_eq_same with v'.
      + pose proof (walk_binds _ _ _ _ _ _ Hx Hne Hfix Hu) as W.
        by rewrite decide_True in W.
      + pose proof (walk_binds _ _ _ _ _ _ Hx Hne Hfix Hv) as W.
        by destruct (decide (v' = TVar x)). }
  assert (Hr : ∀ y, v' = TVar y →
               rtc binds s (<[y := u']> s) ∧ struct_eq (<[y := u']> s) u v).
  { intros y ->.
    pose proof (walk_var_inv _ _ _ _ Hv) as Hy.
    pose proof (walk_fixed _ _ _ _ Hu) as Hfix.
    assert (u' ≠ TVar y) as Hne by congruence.
    split.
    - apply rtc_once. by exists y, u'.
    - apply struct_eq_same with u'.
      + pose proof (walk_binds _ _ _ _ _ _ Hy Hne Hfix Hu) as W.
        by destruct (decide (u' = TVar y)).
      + pose proof (walk_binds _ _ _ _ _ _ Hy Hne Hfix Hv) as W.
        by rewrite decide_True in W. }
  destruct u' as [x| | | | | |us].
  all: try (injection H as <-; rewrite extend_singleton; by eapply Hl).
  all: destruct v' as [y| | | | | |vs]; try discriminate.
  all: try (injection H as <-; rewrite extend_singleton; by eapply Hr).
  case_decide as Hlen; [|discriminate].
  apply (unify_elems_sound _ (IH)) in H as [Hb He]; [|done].
  split; [done|].
  eapply struct_eq_seq; [| |done];
    eapply walks_seq_extends; try done; by eexists.
Qed.

(** ** Full resolution ([walkRec]) of structurally equal terms *)





(** ** Unification *)



(** C1, at the inputs where the code breaks it: [unifyCheck] returns a
    substitution in which [x] is bound to a sequence that contains [x], both
    when the binding is made while unifying the elements of two sequences
    and when the first argument is a variable that walks to [x]; on the
    result, [walkRec(x)] never returns. *)
Theorem unifyCheck_returns_cyclic :
  let s : State := {[ "x" := TVar "x" ]} in
  let s' : State := {[ "x" := TSeq [TVar "x"] ]} in
  let t : State := {[ "x" := TVar "x"; "y" := TVar "x" ]} in
  let t' : State := {[ "x" := TSeq [TVar "x"]; "y" := TVar "x" ]} in
  unifyCheck 3 (TSeq [TVar "x"]) (TSeq [TSeq [TVar "x"]]) s = Some (Some s') ∧
  unifyCheck 3 (TVar "y") (TSeq [TVar "x"]) t = Some (Some t') ∧
  (∀ fuel, walkRec fuel (TVar "x") s' = None) ∧
  (∀ fuel, walkRec fuel (TVar "x") t' = None).
Proof.
  intros s s' t t'. split; [by vm_compute|]. split; [by vm_compute|].
  assert (Hw : ∀ (r : State) fuel,
            r !! "x" = Some (TSeq [TVar "x"]) →
            walkRec fuel (TVar "x") r = None).
  { intros r fuel Hr. induction fuel as [|fuel IH]; [done|].
    cbn [walkRec walk]. rewrite Hr.
    change (default TUndef (Some (TSeq [TVar "x"]))) with (TSeq [TVar "x"]).
    rewrite decide_False by discriminate.
    replace (walk fuel (TSeq [TVar "x"]) r) with (Some (TSeq [TVar "x"]))
      by (by destruct fuel).
    cbn [mapM]. by rewrite IH. }
  split; intros fuel; by apply Hw.
Qed.

(** ** Committed choice *)

(** C5, at the input where the code breaks it: with two clauses, [conda]
    yields only the first substitution of a committing bare goal, while the
    same goal written as a one-element clause, or given as the only clause,
    yields its full stream. *)
Theorem conda_bare_goal_first_only :
  let s : State := {[ "x" := TVar "x" ]} in
  let g := disj [identical (TVar "x") (TNum 1); identical (TVar "x") (TNum 2)] in
  conda [Bare g; Bare fail] 2 s = Yield {[ "x" := TNum 1 ]} Done ∧
  conda [Arr [g]; Bare fail] 2 s =
    Yield {[ "x" := TNum 1 ]} (Yield {[ "x" := TNum 2 ]} Done) ∧
  conda [Bare g] 2 s =
    Yield {[ "x" := TNum 1 ]} (Yield {[ "x" := TNum 2 ]} Done).
Proof. intros s g. by vm_compute. Qed.

(** What [conda] does for the clauses that are arrays: it commits to the
    first clause whose head yields, and runs the rest of that clause over
    all the values of the head. *)
Lemma conda_loop_commits_array pre head tail post fuel s value iter :
  Forall (head_fails fuel s) pre → head fuel s = Yield value iter →
  conda_loop (pre ++ Arr (head :: tail) :: post) fuel s
  = bind (head fuel s) (conj tail fuel).
Proof.
  intros Hpre Hhead. induction Hpre as [|c pre Hc _ IH]; simpl.
  - by rewrite Hhead.
  - destruct c as [goal|[|head' tail']]; simpl in Hc; try done;
      by rewrite Hc.
Qed.

Lemma conda_loop_commits_bare pre goal post fuel s value iter :
  Forall (head_fails fuel s) pre → goal fuel s = Yield value iter →
  conda_loop (pre ++ Bare goal :: post) fuel s = Yield value Done.
Proof.
  intros Hpre Hgoal. induction Hpre as [|c pre Hc _ IH]; simpl.
  - by rewrite Hgoal.
  - destruct c as [goal'|[|head' tail']]; simpl in Hc; try done;
      by rewrite Hc.
Qed.

(** C4, at the inputs where the code breaks it: the generator of [condu]
    shifts the head off the caller's clause array, so the same [condu] goal,
    called again on the same substitution, takes the second goal of the
    clause for its head, and on the third call finds the clause empty.
    Likewise the generator of [take] counts down the [count] of its goal, so
    a second call of [take(1, succeed)] yields nothing. *)
Theorem condu_not_repeatable :
  let s : State := {[ "x" := TVar "x"; "y" := TVar "y" ]} in
  let clauses :=
    [Arr [identical (TVar "x") (TNum 1); identical (TVar "y") (TNum 2)]] in
  let first := condu clauses 2 s in
  let second := condu first.2 2 s in
  let third := condu second.2 2 s in
  let once := take 1 succeed 2 s in
  let again := take once.2 succeed 2 s in
  first.1 = Yield {[ "x" := TNum 1; "y" := TNum 2 ]} Done ∧
  second.1 = Yield {[ "x" := TVar "x"; "y" := TNum 2 ]} Done ∧
  third.1 = Done ∧
  once.1 = Yield s Done ∧
  again.1 = Done.
Proof. intros s clauses first second third once again. by vm_compute. Qed.

(** ** Arithmetic *)

Lemma walk_self fuel x (s : State) :
  s !! x = Some (TVar x) → walk (S fuel) (TVar x) s = Some (TVar x).
Proof. intros H. simpl. rewrite H. simpl. by rewrite decide_True. Qed.

Lemma walk_nonvar fuel r (s : State) :
  (∀ y, r ≠ TVar y) → walk fuel r s = Some r.
Proof. intros H. destruct r, fuel; try done; by destruct (H id). Qed.

Lemma unify_bind_left fuel x r (s : State) :
  s !! x = Some (TVar x) → (∀ y, r ≠ TVar y) →
  unify (S fuel) (TVar x) r s = Some (Some (<[x := r]> s)).
Proof.
  intros Hx Hr. cbn [unify].
  rewrite (walk_self _ _ _ Hx), (walk_nonvar _ _ _ Hr).
  rewrite decide_False by (intros E; by destruct (Hr x)).
  by rewrite extend_singleton.
Qed.

Lemma identical_unbound fuel x r (s : State) :
  0 < fuel → s !! x = Some (TVar x) → (∀ y, r ≠ TVar y) →
  identical (TVar x) r fuel s = Yield (<[x := r]> s) Done.
Proof.
  intros Hf Hx Hr. destruct fuel as [|fuel]; [lia|].
  unfold identical. by rewrite unify_bind_left.
Qed.

(** C9: [pluso(a, b, c)] on ground integers succeeds exactly when
    [a + b = c]; with one argument an unbound variable and the other two
    ground integers it yields exactly one substitution, which binds the
    variable to the bigint sum or difference; with two or more arguments
    variables it throws an instantiation error. *)
Theorem pluso_modes (a b c : term) :
  (∀ na nb nc, BigInt a = Some na → BigInt b = Some nb → BigInt c = Some nc →
     ∃ g, pluso a b c = Ok g ∧
       ∀ fuel s, ((na + nb = nc)%Z → g fuel s = Yield s Done) ∧
                 ((na + nb ≠ nc)%Z → g fuel s = Done)) ∧
  (∀ na nb z, BigInt a = Some na → BigInt b = Some nb → c = TVar z →
     ∃ g, pluso a b c = Ok g ∧
       ∀ fuel (s : State), 0 < fuel → s !! z = Some (TVar z) →
         g fuel s = Yield (<[z := TBig (na + nb)]> s) Done) ∧
  (∀ na nc z, BigInt a = Some na → b = TVar z → BigInt c = Some nc →
     ∃ g, pluso a b c = Ok g ∧
       ∀ fuel (s : State), 0 < fuel → s !! z = Some (TVar z) →
         g fuel s = Yield (<[z := TBig (nc - na)]> s) Done) ∧
  (∀ nb nc z, a = TVar z → BigInt b = Some nb → BigInt c = Some nc →
     ∃ g, pluso a b c = Ok g ∧
       ∀ fuel (s : State), 0 < fuel → s !! z = Some (TVar z) →
         g fuel s = Yield (<[z := TBig (nc - nb)]> s) Done) ∧
  (isVar a && isVar b || isVar a && isVar c || isVar b && isVar c = true →
     ∃ msg, pluso a b c = Raise (InstantiationError msg)).
Proof.
  repeat split.
  - intros na nb nc Ha Hb Hc. unfold pluso. rewrite Ha, Hb, Hc.
    eexists. split; [done|]. intros fuel s.
    case_decide; split; intros; done.
  - intros na nb z Ha Hb ->. unfold pluso. rewrite Ha, Hb. simpl.
    eexists. split; [done|]. intros fuel s Hf Hz.
    by apply identical_unbound.
  - intros na nc z Ha -> Hc. unfold pluso. rewrite Ha, Hc. simpl.
    eexists. split; [done|]. intros fuel s Hf Hz.
    by apply identical_unbound.
  - intros nb nc z -> Hb Hc. unfold pluso. rewrite Hb, Hc. simpl.
    eexists. split; [done|]. intros fuel s Hf Hz.
    by apply identical_unbound.
  - intros H. unfold pluso.
    destruct a, b, c; simpl in *; try discriminate; by eexists.
Qed.

Lemma pluso_modes_witness :
  (∃ g, pluso (TNum 1) (TBig 2) (TNum 3) = Ok g ∧
     ∀ fuel s, ((1 + 2 = 3)%Z → g fuel s = Yield s Done) ∧
               ((1 + 2 ≠ 3)%Z → g fuel s = Done)) ∧
  (∃ g, pluso (TNum 1) (TVar "e") (TNum 3) = Ok g ∧
     ∀ fuel (s : State), 0 < fuel → s !! "e" = Some (TVar "e") →
       g fuel s = Yield (<["e" := TBig (3 - 1)]> s) Done) ∧
  (∃ msg, pluso (TVar "a") (TNum 2) (TVar "c") = Raise (InstantiationError msg)).
Proof.
  split; [|split].
  - destruct (pluso_modes (TNum 1) (TBig 2) (TNum 3)) as (H & _).
    exact (H 1%Z 2%Z 3%Z eq_refl eq_refl eq_refl).
  - destruct (pluso_modes (TNum 1) (TVar "e") (TNum 3)) as (_ & _ & H & _).
    exact (H 1%Z 3%Z "e" eq_refl eq_refl eq_refl).
  - destruct (pluso_modes (TVar "a") (TNum 2) (TVar "c")) as (_ & _ & _ & _ & H).
    exact (H eq_refl).
Defined.

(** ** Fresh variables *)



(** ** Interleaving *)

Section round_robin.
Context {A : Type}.
Implicit Types (it : stream A) (iters pre post : list (stream A)).


Lemma prepend_app (l1 l2 : list A) (st : stream A) :
  prepend (l1 ++ l2) st = prepend l1 (prepend l2 st).
Proof. unfold prepend. by rewrite foldr_app. Qed.

Lemma omap_omap_bind {X Y Z : Type} (f : X → option Z) (g : Y → option Z)
    (h : X → option Y) (l : list X) :
  (∀ x, f x = h x ≫= g) → omap f l = omap g (omap h l).
Proof.
  intros Hf. induction l as [|x l IH]; [done|]. csimpl.
  rewrite Hf, IH. destruct (h x) as [y|]; csimpl; [|done].
  by destruct (g y).
Qed.

Lemma nth_round_S r iters : nth_round (S r) iters = nth_round r (tails iters).
Proof. apply omap_omap_bind. by intros []. Qed.

Lemma round_robin_order_S n iters :
  round_robin_order (S n) iters = heads iters ++ round_robin_order n (tails iters).
Proof.
  unfold round_robin_order, heads. simpl. f_equal.
  rewrite <- fmap_S_seq, <- list_fmap_compose. f_equal.
  apply list_fmap_ext. intros _ r _. simpl. apply nth_round_S.
Qed.

Lemma length_tails iters : length (tails iters) ≤ length iters.
Proof.
  unfold tails. induction iters as [|[] iters IH]; csimpl; lia.
Qed.

Lemma returns_S_tails n iters :
  Forall (returns (S n)) iters →
  Forall (returns 1) iters ∧ Forall (returns n) (tails iters).
Proof.
  induction 1 as [|it iters Hit _ [IH1 IH2]]; [by split|].
  destruct it as [|v rest| |]; simpl in Hit; try done.
  - split; [by constructor | done].
  - split; [by constructor|]. unfold tails in *. csimpl. by constructor.
Qed.

Lemma roundRobin_round post : ∀ pre fuel,
  Forall (returns 1) post → length post + 2 ≤ fuel →
  roundRobin fuel (pre ++ post) (length pre) =
  prepend (heads post) (roundRobin (fuel - length post - 1) (pre ++ tails post) 0).
Proof.
  induction post as [|it post IH]; intros pre fuel Hret Hfuel.
  - simpl in *. destruct fuel as [|fuel]; [lia|]. simpl.
    rewrite app_nil_r, Nat.sub_0_r.
    rewrite lookup_ge_None_2 by lia.
    destruct pre; [|done]. destruct fuel; [lia|done].
  - apply Forall_cons_1 in Hret as [Hit Hret]. simpl in Hfuel.
    destruct fuel as [|fuel]; [lia|]. cbn [roundRobin].
    rewrite list_lookup_middle by done.
    destruct it as [|v rest| |]; simpl in Hit; try done.
    + rewrite delete_middle. rewrite IH by (done || lia).
      replace (S fuel - length (@Done A :: post) - 1)
        with (fuel - length post - 1) by (simpl; lia).
      done.
    + rewrite insert_app_r_alt by lia. rewrite Nat.sub_diag. simpl.
      replace (pre ++ rest :: post) with ((pre ++ [rest]) ++ post)
        by (by rewrite <- app_assoc).
      replace (S (length pre)) with (length (pre ++ [rest]))
        by (rewrite length_app; simpl; lia).
      rewrite IH by (done || lia).
      replace (S fuel - length (Yield v rest :: post) - 1)
        with (fuel - length post - 1) by (simpl; lia).
      by rewrite <- app_assoc.
Qed.

End round_robin.

Section round_robin_fair.
Context {A : Type}.
Implicit Types (it : stream A) (iters : list (stream A)).











End round_robin_fair.

Lemma disji_interleaved (goals : list Goal) fuel s :
  disji goals fuel s = interleaved fuel ((fun goal => goal fuel s) <$> goals).
Proof. by destruct goals as [|g1 [|g2 goals]]. Qed.

Lemma condi_interleaved (clauses : list clause) fuel s :
  condi clauses fuel s =
  interleaved fuel ((fun c => clause_goal c fuel s) <$> clauses).
Proof. by destruct clauses as [|c1 [|c2 clauses]]. Qed.



(** ** Generators over shared arrays *)

Section shared_arrays_facts.
Variable randomUUID : nat → string.

Lemma observe_lift h (s : State) : observe h (lift s) = s.
Proof.
  unfold observe, lift. rewrite <- map_fmap_compose.
  rewrite <- (map_fmap_id s) at 2. by apply map_fmap_ext.
Qed.

Lemma observe_insert_ref h (s : HState) id a :
  observe h (<[id := Ref a]> s) = <[id := TSeq (contents h a)]> (observe h s).
Proof. unfold observe. by rewrite fmap_insert. Qed.

Lemma contents_alloc_new l h : contents (alloc l h).2 (alloc l h).1 = l.
Proof.
  unfold contents, alloc. simpl. by rewrite list_lookup_middle.
Qed.

Lemma contents_alloc_old l h b :
  b < length (arrays h) → contents (alloc l h).2 b = contents h b.
Proof.
  intros Hb. unfold contents, alloc. simpl. by rewrite lookup_app_l.
Qed.

Lemma contents_pushes n : ∀ a h,
  a < length (arrays h) →
  contents (pushes randomUUID n a h) a =
  contents h a ++ freshVars randomUUID (uuids h) n.
Proof.
  unfold freshVars.
  induction n as [|n IH]; intros a h Ha; simpl.
  - by rewrite app_nil_r.
  - rewrite IH by (simpl; by rewrite length_alter). simpl.
    unfold contents at 1. simpl.
    destruct (lookup_lt_is_Some_2 _ _ Ha) as [l Hl].
    rewrite list_lookup_alter_eq. unfold contents. rewrite Hl. simpl.
    by rewrite <- app_assoc.
Qed.

Lemma contents_pushes_other n : ∀ a b h,
  a ≠ b → contents (pushes randomUUID n a h) b = contents h b.
Proof.
  induction n as [|n IH]; intros a b h Hab; simpl; [done|].
  rewrite IH by done. unfold contents. simpl.
  by rewrite list_lookup_alter_ne.
Qed.

Lemma gpull_gappend {A} (g : gen A) rest n r :
  gpull n g = Some r → gpull n (gappend g rest) = Some r.
Proof.
  revert n. induction g as [h|value h resume IH|e|]; intros n H;
    simpl in *; try done.
  destruct n; [done|]. by apply IH.
Qed.

(** Looping over [varList] with a body that yields once per array. *)
Lemma gpull_for_of_varList {B} (f : nat → heap → B) n : ∀ fuel a h,
  gpull n (for_of (varList randomUUID fuel a h)
             (fun r h' => GYield (f r h') h' GDone)) =
  if decide (n < fuel)
  then Some (f a (pushes randomUUID n a h), pushes randomUUID n a h)
  else None.
Proof.
  induction n as [|n IH]; intros [|fuel] a h; simpl; try done.
  rewrite IH. repeat case_decide; try done; lia.
Qed.
End shared_arrays_facts.

(** C3, at the input where the code breaks it: the state that [listo(x)]
    yields first binds [x] to the array of [varList] itself; the second pull
    pushes a variable onto that array, so the list that the first state
    binds [x] to grows from [[]] to one element after it was yielded.
    [membero] with an unbound list does the same. *)
Theorem listo_yielded_state_changes (randomUUID : nat → string) :
  let s : State := {[ "x" := TVar "x" ]} in
  let g := listo randomUUID (TVar "x") 2 s emptyHeap in
  let m := membero randomUUID (TNum 1) (TVar "x") 2 s emptyHeap in
  (∃ s1 h1 s2 h2,
      gpull 0 g = Some (s1, h1) ∧ gpull 1 g = Some (s2, h2) ∧
      observe h1 s1 = {[ "x" := TSeq [] ]} ∧
      observe h2 s1 = {[ "x" := TSeq [TVar (randomUUID 0)] ]}) ∧
  (∃ s1 h1 s2 h2,
      gpull 0 m = Some (s1, h1) ∧ gpull 1 m = Some (s2, h2) ∧
      observe h1 s1 = {[ "x" := TSeq [TNum 1] ]} ∧
      observe h2 s1 = {[ "x" := TSeq [TNum 1; TVar (randomUUID 0)] ]}).
Proof.
  intros s g m. split; do 4 eexists; repeat split; by vm_compute.
Qed.

Lemma membero_unbound_pull (randomUUID : nat → string) (el : term)
    (id v : string) (fuel n : nat) (s : State) (h : heap) :
  walk fuel (TVar id) s = Some (TVar v) →
  gpull n (membero randomUUID el (TVar id) fuel s h) =
  if decide (n < fuel)
  then
    let a := length (arrays h) in
    let hn := pushes randomUUID n a (alloc [el] h).2 in
    Some (<[id := Ref a]> (lift s), hn)
  else None.
Proof.
  intros Hw. unfold membero. rewrite Hw. simpl.
  by rewrite (gpull_for_of_varList randomUUID
                (fun r _ => <[id := Ref r]> (lift s))).
Qed.

Lemma membero_unbound_observe (randomUUID : nat → string) (el : term)
    (id : string) (n : nat) (s : State) (h : heap) :
  let a := length (arrays h) in
  observe (pushes randomUUID n a (alloc [el] h).2) (<[id := Ref a]> (lift s)) =
  <[id := TSeq (el :: freshVars randomUUID (uuids h) n)]> s.
Proof.
  intros a. rewrite observe_insert_ref, observe_lift.
  rewrite contents_pushes by (simpl; rewrite length_app; simpl; lia).
  pose proof (contents_alloc_new [el] h) as E. simpl in E. fold a in E.
  simpl. by rewrite E.
Qed.

(** C7, as the code has it: when [list] walks to an unbound variable,
    [membero(el, list)] yields without end, and its [n]-th state, counting
    from 0, binds [list] to the array that holds, at that moment, [el]
    followed by [n] fresh variables: [el] is at the head of every list. *)
Theorem membero_unbound_list (randomUUID : nat → string) (el : term)
    (id v : string) (fuel n : nat) (s : State) (h : heap) :
  walk fuel (TVar id) s = Some (TVar v) → n < fuel →
  ∃ st hn,
    gpull n (membero randomUUID el (TVar id) fuel s h) = Some (st, hn) ∧
    observe hn st = <[id := TSeq (el :: freshVars randomUUID (uuids h) n)]> s.
Proof.
  intros Hw Hn. rewrite (membero_unbound_pull _ _ _ _ _ _ _ _ Hw).
  rewrite decide_True by done. do 2 eexists. split; [done|].
  apply membero_unbound_observe.
Qed.

Lemma membero_unbound_list_witness :
  ∃ st hn,
    gpull 2 (membero pretty (TNum 1) (TVar "l") 3 {[ "l" := TVar "l" ]} emptyHeap)
    = Some (st, hn) ∧
    observe hn st =
    <["l" := TSeq (TNum 1 :: freshVars pretty 0 2)]> {[ "l" := TVar "l" ]}.
Proof.
  apply (membero_unbound_list pretty (TNum 1) "l" "l" 3 2
           {[ "l" := TVar "l" ]} emptyHeap).
  - reflexivity.
  - lia.
Defined.

(** C7 as stated fails for the list of length 2 with [el] in the second
    place: [membero(1, l)] on an unbound [l] never yields a state that binds
    [l] to [[v; 1]] for a variable [v]. *)
Lemma membero_never_second_place :
  ¬ ∃ fuel n st hn v,
      gpull n (membero pretty (TNum 1) (TVar "l") fuel {[ "l" := TVar "l" ]}
                 emptyHeap) = Some (st, hn) ∧
      observe hn st !! "l" = Some (TSeq [TVar v; TNum 1]).
Proof.
  intros (fuel & n & st & hn & v & Hp & Hl).
  destruct fuel as [|fuel]; [done|].
  rewrite (membero_unbound_pull _ _ _ "l") in Hp by done.
  case_decide; [|done]. injection Hp as <- <-.
  pose proof (membero_unbound_observe pretty (TNum 1) "l" n
                {[ "l" := TVar "l" ]} emptyHeap) as E.
  simpl in E. rewrite E, lookup_insert_eq in Hl. done.
Qed.

Lemma alloc_length l h : length (arrays h) < length (arrays (alloc l h).2).
Proof. simpl. rewrite length_app. simpl. lia. Qed.

Lemma for_of_varList_S {B} randomUUID fuel a h (body : nat → heap → gen B) :
  for_of (varList randomUUID (S fuel) a h) body =
  gappend (body a h)
    (fun h' => for_of (let '(v, h1) := newVar randomUUID h' in
                       varList randomUUID fuel a (push a v h1)) body).
Proof. done. Qed.

(** C8, where the code breaks it: with [n] and [list] both variables,
    the [k]-th state of [ntho(n, list, el)], counting from 0, binds [list]
    to [k] fresh variables followed by [el], so [el] is at the 0-based
    position [k], but binds the index [n] to [k + 1], the length of the
    list. *)
Theorem ntho_unbound_index_is_length (randomUUID : nat → string)
    (nid lid : string) (el : term) (fuel k : nat) (s : State) (h : heap) :
  k < fuel →
  ∃ g st hk,
    ntho randomUUID (TVar nid) (TVar lid) el = Ok g ∧
    gpull k (g fuel s h) = Some (st, hk) ∧
    observe hk st =
      extend s (<[nid := TNum (Z.of_nat (k + 1))]>
                  {[lid := TSeq (freshVars randomUUID (uuids h) k ++ [el])]}) ∧
    (freshVars randomUUID (uuids h) k ++ [el]) !! k = Some el.
Proof.
  intros Hk. exists (ntho_vars randomUUID nid lid el).
  destruct fuel as [|fuel]; [lia|].
  unfold ntho_vars.
  pose proof (contents_alloc_new [el] h) as Ctl.
  pose proof (alloc_length [el] h) as Ltl.
  destruct (alloc [el] h) as [tail0 h1] eqn:E1.
  assert (tail0 = length (arrays h)) as Etl by (by injection E1).
  assert (uuids h1 = uuids h) as Eu1 by (injection E1 as _ <-; done).
  pose proof (contents_alloc_new [] h1) as Chd.
  pose proof (alloc_length [] h1) as Lhd.
  pose proof (contents_alloc_old [] h1 tail0) as Cold.
  rewrite for_of_varList_S.
  destruct (alloc [] h1) as [head0 h2] eqn:E2.
  assert (head0 = length (arrays h1)) as Ehd by (by injection E2).
  assert (uuids h2 = uuids h1) as Eu2 by (injection E2 as _ <-; done).
  simpl in Ctl, Ltl, Chd, Lhd, Cold.
  erewrite gpull_gappend; cycle 1.
  { rewrite (gpull_for_of_varList randomUUID
      (fun head h'' =>
         lift (extend s
           (<[nid := TNum (Z.of_nat (length (contents h'' head)
                                     + length (contents h'' tail0)))]>
              {[lid := TSeq (contents h'' head ++ contents h'' tail0)]})))).
    rewrite decide_True by lia. reflexivity. }
  do 2 eexists. split; [done|]. split; [reflexivity|].
  rewrite observe_lift.
  rewrite contents_pushes by lia.
  rewrite contents_pushes_other by lia.
  rewrite Chd, Cold, Ctl, Eu2, Eu1 by lia. simpl.
  unfold freshVars. rewrite length_fmap, length_seq. split; [done|].
  rewrite lookup_app_r; rewrite length_fmap, length_seq; [|lia].
  by rewrite Nat.sub_diag.
Qed.

Lemma ntho_unbound_index_is_length_witness :
  ∃ g st hk,
    ntho pretty (TVar "n") (TVar "list") (TStr "g") = Ok g ∧
    gpull 0 (g 1 {[ "n" := TVar "n"; "list" := TVar "list" ]} emptyHeap)
    = Some (st, hk) ∧
    observe hk st =
      extend {[ "n" := TVar "n"; "list" := TVar "list" ]}
        (<["n" := TNum (Z.of_nat (0 + 1))]>
           {["list" := TSeq (freshVars pretty 0 0 ++ [TStr "g"])]}) ∧
    (freshVars pretty 0 0 ++ [TStr "g"]) !! 0 = Some (TStr "g").
Proof.
  apply (ntho_unbound_index_is_length pretty "n" "list" (TStr "g") 1 0
           {[ "n" := TVar "n"; "list" := TVar "list" ]} emptyHeap).
  lia.
Defined.

(** ** The tests of [minikanren.spec.ts], replayed on the model *)

Example test_fresh_identical :
  fresh ["x"] (fun s => identical (get s "x") (TNum 3)) 2 emptyState
  = Yield {[ "x" := TNum 3 ]} Done.
Proof. by vm_compute. Qed.

Example test_fresh_2 :
  fresh ["x"; "y"]
    (fun s => conj [identical (get s "x") (TNum 3); identical (get s "y") (TNum 4)])
    2 emptyState
  = Yield {[ "x" := TNum 3; "y" := TNum 4 ]} Done.
Proof. by vm_compute. Qed.

Example test_fresh_3 :
  fresh ["x"]
    (fun s => disj [identical (get s "x") (TNum 3); identical (get s "x") (TNum 4)])
    2 emptyState
  = Yield {[ "x" := TNum 3 ]} (Yield {[ "x" := TNum 4 ]} Done).
Proof. by vm_compute. Qed.

Example test_a_and_b :
  fresh ["a"; "b"]
    (fun s => conj [identical (get s "a") (TNum 7);
                    disj [identical (get s "b") (TNum 5);
                          identical (get s "b") (TNum 6)]])
    2 emptyState
  = Yield {[ "a" := TNum 7; "b" := TNum 5 ]}
      (Yield {[ "a" := TNum 7; "b" := TNum 6 ]} Done).
Proof. by vm_compute. Qed.

Example test_fives_and_sixes_unfair :
  let st := callFresh "x" (fun s => disj [fives s; sixes s]) 8 emptyState in
  pull 0 st = Some {[ "x" := TNum 5 ]} ∧ pull 5 st = Some {[ "x" := TNum 5 ]}.
Proof. by vm_compute. Qed.

Example test_disji_unequal_lengths :
  callFresh "x"
    (fun s =>
       let x := get s "x" in
       disji [disj [identical x (TNum 1); identical x (TNum 4); identical x (TNum 6)];
              identical x (TNum 2);
              disj [identical x (TNum 3); identical x (TNum 5);
                    identical x (TNum 7); identical x (TNum 8)]])
    20 emptyState
  = prepend ((fun n => {[ "x" := TNum n ]}) <$> [1; 2; 3; 4; 5; 6; 7; 8]%Z) Done.
Proof. by vm_compute. Qed.

Example test_identicalCheck :
  fresh ["x"] (fun s => identicalCheck (get s "x") (get s "x")) 3 emptyState
  = Yield {[ "x" := TVar "x" ]} Done ∧
  fresh ["x"] (fun s => identicalCheck (get s "x") (TSeq [TNum 1])) 3 emptyState
  = Yield {[ "x" := TSeq [TNum 1] ]} Done ∧
  fresh ["x"] (fun s => identicalCheck (get s "x") (TSeq [get s "x"])) 3 emptyState
  = Done.
Proof. by vm_compute. Qed.

Example test_conde_2 :
  fresh ["x"]
    (fun s =>
       let x := get s "x" in
       conde [Arr [identical (TStr "virgin") x; fail];
              Arr [identical (TStr "olive") x; succeed];
              Arr [succeed; succeed];
              Arr [identical (TStr "oil") x; succeed];
              Arr [succeed; fail]])
    2 emptyState
  = Yield {[ "x" := TStr "olive" ]}
      (Yield {[ "x" := TVar "x" ]} (Yield {[ "x" := TStr "oil" ]} Done)).
Proof. by vm_compute. Qed.

Example test_condi :
  fresh ["r"]
    (fun s => condi [Bare (teacupo (get s "r"));
                     Bare (identical (TBool false) (get s "r"))])
    10 emptyState
  = Yield {[ "r" := TStr "tea" ]}
      (Yield {[ "r" := TBool false ]} (Yield {[ "r" := TStr "cup" ]} Done)).
Proof. by vm_compute. Qed.

Example test_conda :
  fresh ["x"]
    (fun s =>
       let x := get s "x" in
       conda [Arr [identical (TStr "virgin") x; fail];
              Arr [identical (TStr "olive") x; succeed];
              Arr [identical (TStr "oil") x; succeed];
              Arr [succeed; fail]])
    2 emptyState
  = Done.
Proof. by vm_compute. Qed.

Example test_condu :
  (condu [Bare (teacupo (TVar "x"))] 2 {[ "x" := TVar "x" ]}).1
  = Yield {[ "x" := TStr "tea" ]} Done.
Proof. by vm_compute. Qed.

Example test_sixes :
  (take 4 (sixes {[ "x" := TVar "x" ]}) 8 {[ "x" := TVar "x" ]}).1
  = prepend (replicate 4 {[ "x" := TNum 6 ]}) Done.
Proof. by vm_compute. Qed.

Example test_pluso :
  (∃ g, pluso (TNum 1) (TBig 2) (TVar "c") = Ok g ∧
        g 1 {[ "c" := TVar "c" ]} = Yield {[ "c" := TBig 3 ]} Done) ∧
  (∃ g, pluso (TBig 1) (TVar "f") (TNum 3) = Ok g ∧
        g 1 {[ "f" := TVar "f" ]} = Yield {[ "f" := TBig 2 ]} Done) ∧
  (∃ g, pluso (TVar "k") (TNum 2) (TBig 3) = Ok g ∧
        g 1 {[ "k" := TVar "k" ]} = Yield {[ "k" := TBig 1 ]} Done).
Proof. repeat split; eexists; split; try reflexivity; by vm_compute. Qed.

Example test_membero :
  let g := membero pretty (TVar "x") (TSeq [TNum 1; TNum 2; TNum 3; TNum 4])
             2 {[ "x" := TVar "x" ]} emptyHeap in
  let g' := membero pretty (TNum 1) (TSeq [TNum 1; TNum 2; TVar "x"; TNum 4])
              2 {[ "x" := TVar "x" ]} emptyHeap in
  observed 5 g = (fun n => {[ "x" := TNum n ]}) <$> [1; 2; 3; 4]%Z ∧
  ended 4 g = true ∧
  observed 3 g' = [{[ "x" := TVar "x" ]}; {[ "x" := TNum 1 ]}] ∧
  ended 2 g' = true.
Proof. by vm_compute. Qed.

Example test_listo :
  observed 3 (listo pretty (TVar "list") 5 {[ "list" := TVar "list" ]} emptyHeap)
  = [ {[ "list" := TSeq [] ]};
      {[ "list" := TSeq [TVar (pretty 0)] ]};
      {[ "list" := TSeq [TVar (pretty 0); TVar (pretty 1)] ]} ].
Proof. by vm_compute. Qed.

Example test_ntho :
  let s : State := {[ "n" := TVar "n"; "list" := TVar "list"; "a" := TVar "a" ]} in
  let run (r : result HGoal) (n : nat) :=
    match r with Ok g => observed n (g 5 s emptyHeap) | Raise _ => [] end in
  ntho pretty (TNum 0) (TSeq [TStr "a"]) (TStr "a") = Ok (hgoal succeed) ∧
  ntho pretty (TNum 0) (TSeq [TStr "a"]) (TStr "b") = Ok (hgoal fail) ∧
  ntho pretty (TNum 1) (TSeq [TStr "a"]) (TVar "v") = Ok (hgoal fail) ∧
  run (ntho pretty (TNum 0) (TSeq [TStr "a"]) (TVar "a")) 2
  = [<["a" := TStr "a"]> s] ∧
  run (ntho pretty (TVar "n") (TSeq [TStr "a"; TStr "b"; TStr "c"; TStr "b"])
         (TStr "b")) 3
  = [<["n" := TNum 1]> s; <["n" := TNum 3]> s] ∧
  run (ntho pretty (TNum 1) (TVar "list") (TStr "f")) 2
  = [<["list" := TSeq [TVar (pretty 0); TStr "f"]]> s;
     <["list" := TSeq [TVar (pretty 0); TStr "f"; TVar (pretty 1)]]> s].
Proof. by vm_compute. Qed.

(** ** More on [walk] and [unify] *)

(** X1: what [walk] returns is resolved: it is no variable that the state
    binds to something else, and walking it again, with any fuel, returns
    it unchanged. *)
Theorem walk_idempotent fuel t (s : State) r :
  walk fuel t s = Some r →
  (∀ x, r = TVar x → s !! x = Some (TVar x)) ∧
  ∀ fuel', walk (S fuel') r s = Some r.
Proof.
  intros H. split.
  - intros x ->. by eapply walk_var_inv.
  - intros fuel'. eapply walk_mono; [by eapply walk_fixed | lia].
Qed.

Lemma walk_idempotent_witness :
  let s : State := {[ "x" := TVar "y"; "y" := TVar "y" ]} in
  (∀ x, TVar "y" = TVar x → s !! x = Some (TVar x)) ∧
  ∀ fuel', walk (S fuel') (TVar "y") s = Some (TVar "y").
Proof.
  intros s. apply (walk_idempotent 2 (TVar "x") s). reflexivity.
Defined.

Lemma binds_preserves (s s' : State) :
  binds s s' →
  dom s' = dom s ∧ ∀ k t, s !! k = Some t → t ≠ TVar k → s' !! k = Some t.
Proof.
  intros (x & r & Hx & Hne & _ & ->). split.
  - rewrite dom_insert_L. assert (x ∈ dom s) as Hin by (by eapply elem_of_dom_2).
    apply leibniz_equiv. apply subseteq_union_1. by apply singleton_subseteq_l.
  - intros k t Hk Ht. rewrite lookup_insert_ne; [done|]. congruence.
Qed.

Lemma extends_preserves (s s' : State) :
  rtc binds s s' →
  dom s' = dom s ∧ ∀ k t, s !! k = Some t → t ≠ TVar k → s' !! k = Some t.
Proof.
  induction 1 as [s|s s1 s' Hb _ [IHd IHk]]; [done|].
  apply binds_preserves in Hb as [Hd Hk]. split; [congruence|].
  intros k t Hkt Ht. apply IHk; [|done]. by apply Hk.
Qed.

(** X2: a substitution returned by [unify] has the keys of the one it was
    given, no more and no fewer, and keeps every binding of it except those
    of variables that were bound to themselves: the unifier adds no key and
    never rebinds a bound variable. *)
Theorem unify_extends fuel u v (s s' : State) :
  unify fuel u v s = Some (Some s') →
  dom s' = dom s ∧ ∀ k t, s !! k = Some t → t ≠ TVar k → s' !! k = Some t.
Proof. intros H. apply unify_sound in H as [H _]. by apply extends_preserves. Qed.

Lemma unify_extends_witness :
  let s : State := {[ "x" := TVar "x"; "y" := TNum 7 ]} in
  let s' : State := {[ "x" := TNum 7; "y" := TNum 7 ]} in
  dom s' = dom s ∧ ∀ k t, s !! k = Some t → t ≠ TVar k → s' !! k = Some t.
Proof.
  intros s s'. apply (unify_extends 2 (TVar "x") (TVar "y") s s').
  by vm_compute.
Defined.

Lemma struct_eq_unify (s : State) a b :
  struct_eq s a b →
  ∃ n, ∀ fuel, n ≤ fuel → unify fuel a b s = Some (Some s).
Proof.
  revert a b.
  apply (struct_eq_mut s
    (fun a b => ∃ n, ∀ fuel, n ≤ fuel → unify fuel a b s = Some (Some s))
    (fun us vs => length us = length vs ∧
       ∃ n, ∀ fuel, n ≤ fuel →
         unify_elems (unify fuel) us vs s = Some (Some s))).
  - intros a b r [fa Ha] [fb Hb]. exists (S (fa `max` fb)).
    intros [|fuel] Hle; [lia|]. cbn [unify].
    rewrite (walk_mono _ (S fuel) _ _ _ Ha), (walk_mono _ (S fuel) _ _ _ Hb)
      by lia.
    by rewrite decide_True.
  - intros a b us vs [fa Ha] [fb Hb] _ (Hlen & n & Hn).
    exists (S ((fa `max` fb) `max` n)).
    intros [|fuel] Hle; [lia|]. cbn [unify].
    rewrite (walk_mono _ (S fuel) _ _ _ Ha), (walk_mono _ (S fuel) _ _ _ Hb)
      by lia.
    case_decide; [done|]. rewrite decide_True by done. apply Hn. lia.
  - split; [done|]. by exists 0.
  - intros a b us vs _ (n1 & H1) _ (Hlen & n2 & H2). split; [simpl; lia|].
    exists (n1 `max` n2). intros fuel Hle. simpl.
    rewrite H1 by lia. apply H2. lia.
Qed.

(** X3: unification is idempotent: when [unify(u, v, s)] has returned [s'],
    unifying [u] and [v] again in [s'] returns [s'] itself. *)
Theorem unify_idempotent fuel u v (s s' : State) :
  unify fuel u v s = Some (Some s') →
  ∃ n, ∀ fuel', n ≤ fuel' → unify fuel' u v s' = Some (Some s').
Proof. intros H. apply unify_sound in H as [_ H]. by apply struct_eq_unify. Qed.

Lemma unify_idempotent_witness :
  let u := TSeq [TVar "x"; TNum 2] in
  let v := TSeq [TNum 1; TVar "y"] in
  let s' : State := {[ "x" := TNum 1; "y" := TNum 2 ]} in
  ∃ n, ∀ fuel', n ≤ fuel' → unify fuel' u v s' = Some (Some s').
Proof.
  intros u v s'.
  apply (unify_idempotent 3 u v {[ "x" := TVar "x"; "y" := TVar "y" ]} s').
  by vm_compute.
Defined.

(** X4: when [walk] resolves the two terms to different values neither of
    which is a variable, and which are not two sequences of the same length
    (different atoms, an atom and a sequence, a string and the sequence of
    its characters, sequences of unequal length), [unify] returns
    [undefined], without looking at any element. *)
Theorem unify_mismatch fuel u v (s : State) u' v' :
  walk (S fuel) u s = Some u' → walk (S fuel) v s = Some v' →
  u' ≠ v' → isVar u' = false → isVar v' = false →
  (∀ us vs, u' = TSeq us → v' = TSeq vs → length us ≠ length vs) →
  unify (S fuel) u v s = Some None.
Proof.
  intros Hu Hv Hne Hxu Hxv Hlen. cbn [unify]. rewrite Hu, Hv.
  rewrite decide_False by done.
  destruct u' as [| | | | | |us], v' as [| | | | | |vs]; try done.
  rewrite decide_False; [done|]. by apply Hlen.
Qed.

Lemma unify_mismatch_witness :
  unify 1 (TStr "xyz") (TSeq [TStr "x"; TStr "y"; TStr "z"]) emptyState
  = Some None ∧
  unify 1 (TSeq [TVar "a"]) (TSeq [TVar "a"; TVar "b"]) emptyState = Some None.
Proof.
  split.
  - apply (unify_mismatch 0 _ _ _ (TStr "xyz")
             (TSeq [TStr "x"; TStr "y"; TStr "z"])); try done.
  - apply (unify_mismatch 0 _ _ _ (TSeq [TVar "a"])
             (TSeq [TVar "a"; TVar "b"])); try done.
    intros us vs [= <-] [= <-]. simpl. lia.
Defined.

Lemma walk_ground fuel x (s : State) : isGround x = true → walk fuel x s = Some x.
Proof. intros H. by destruct x, fuel. Qed.

Lemma unify_elems_ground (s : State) us :
  Forall (fun u => ∀ v, isGround u = true → isGround v = true →
            ∃ n, ∀ fuel, n ≤ fuel →
              unify fuel u v s = Some (if decide (u = v) then Some s else None))
         us →
  forallb isGround us = true →
  ∀ vs, forallb isGround vs = true → length us = length vs →
    ∃ n, ∀ fuel, n ≤ fuel →
      unify_elems (unify fuel) us vs s
      = Some (if decide (us = vs) then Some s else None).
Proof.
  induction 1 as [|u us Hu _ IH]; intros Hg [|v vs] Hgv Hlen; try done.
  - by exists 0.
  - simpl in Hg, Hgv, Hlen.
    apply andb_true_iff in Hg as [Hgu Hgus].
    apply andb_true_iff in Hgv as [Hgv Hgvs].
    destruct (Hu v Hgu Hgv) as [n1 H1].
    destruct (IH Hgus vs Hgvs) as [n2 H2]; [lia|].
    exists (n1 `max` n2). intros fuel Hle. simpl.
    rewrite H1 by lia. destruct (decide (u = v)) as [->|Hne].
    + rewrite H2 by lia. repeat case_decide; congruence.
    + rewrite decide_False; [done|congruence].
Qed.

Lemma unify_ground (s : State) u v :
  isGround u = true → isGround v = true →
  ∃ n, ∀ fuel, n ≤ fuel →
    unify fuel u v s = Some (if decide (u = v) then Some s else None).
Proof.
  revert v. induction u as [x|m|m|x|x| |us IH] using term_nested_ind;
    intros v Hu Hv; try done.
  1-5: exists 1; intros [|fuel] Hle; [lia|]; cbn [unify];
       rewrite !walk_ground by done; case_decide; [done|]; by destruct v.
  destruct v as [y|n|n|y|y| |vs]; try done.
  1-5: exists 1; intros [|fuel] Hle; [lia|]; cbn [unify];
       rewrite !walk_ground by done; by rewrite decide_False.
  destruct (decide (length us = length vs)) as [Hlen|Hlen].
  - destruct (unify_elems_ground s us IH Hu vs Hv Hlen) as [n Hn].
    exists (S n). intros [|fuel] Hle; [lia|]. cbn [unify].
    rewrite !walk_ground by done.
    destruct (decide (TSeq us = TSeq vs)) as [E|E]; [done|].
    rewrite decide_True by done.
    rewrite Hn by lia. rewrite decide_False; [done|congruence].
  - exists 1. intros [|fuel] Hle; [lia|]. cbn [unify].
    rewrite !walk_ground by done.
    assert (TSeq us ≠ TSeq vs) as E by congruence.
    destruct (decide (TSeq us = TSeq vs)); [done|].
    by destruct (decide (length us = length vs)).
Qed.

(** X5: on ground terms (no variable anywhere) [unify] is the test for
    equality: given fuel for the depth of the terms, it returns the state it
    was given, unchanged, when the two terms are equal, and [undefined] when
    they are not. *)
Theorem unify_ground_decides (s : State) u v :
  isGround u = true → isGround v = true →
  ∃ n, ∀ fuel, n ≤ fuel →
    unify fuel u v s = Some (if decide (u = v) then Some s else None).
Proof. apply unify_ground. Qed.

Lemma unify_ground_decides_witness :
  ∃ n, ∀ fuel, n ≤ fuel →
    unify fuel (TSeq [TStr "x"; TSeq [TNum 1]]) (TSeq [TStr "x"; TSeq [TBig 1]])
      emptyState
    = Some (if decide (TSeq [TStr "x"; TSeq [TNum 1]]
                       = TSeq [TStr "x"; TSeq [TBig 1]])
            then Some emptyState else None).
Proof. apply unify_ground_decides; reflexivity. Defined.

(** ** The occurs check *)






(** ** The algebra of goals *)

Lemma append_Done_r {A} (a : stream A) : append a Done = a.
Proof. induction a; simpl; congruence. Qed.

Lemma append_assoc {A} (a b c : stream A) :
  append (append a b) c = append a (append b c).
Proof. induction a; simpl; congruence. Qed.

Lemma bind_append {A B} (a b : stream A) (f : A → stream B) :
  bind (append a b) f = append (bind a f) (bind b f).
Proof.
  induction a as [|x a IH| |]; simpl; try done.
  by rewrite IH, append_assoc.
Qed.

Lemma bind_bind {A B C} (a : stream A) (f : A → stream B) (g : B → stream C) :
  bind (bind a f) g = bind a (fun x => bind (f x) g).
Proof.
  induction a as [|x a IH| |]; simpl; try done.
  by rewrite bind_append, IH.
Qed.

Lemma bind_unit {A} (a : stream A) : bind a (fun x => Yield x Done) = a.
Proof. induction a; simpl; congruence. Qed.

Lemma bind_ext {A B} (a : stream A) (f g : A → stream B) :
  (∀ x, f x = g x) → bind a f = bind a g.
Proof. intros H. induction a; simpl; congruence. Qed.

Lemma conj_cons goal goals fuel s :
  conj (goal :: goals) fuel s = bind (goal fuel s) (conj goals fuel).
Proof.
  destruct goals as [|g goals]; [|done]. simpl.
  symmetry. apply bind_unit.
Qed.

(** X8: [succeed] is a unit of [conj] on both sides and [fail] in front
    makes it fail: [conj(succeed, g)] and [conj(g, succeed)] yield the stream
    of [g], and [conj(fail, …)] yields nothing, whatever the goals after
    [fail] would do. *)
Theorem conj_units (g : Goal) (goals : list Goal) fuel s :
  conj [succeed; g] fuel s = g fuel s ∧
  conj [g; succeed] fuel s = g fuel s ∧
  conj (fail :: goals) fuel s = Done.
Proof.
  split; [|split].
  - simpl. apply append_Done_r.
  - simpl. apply bind_unit.
  - by rewrite conj_cons.
Qed.

(** X9: [conj] is the fold of [bind] over its goals: the stream of
    [conj(g1, …, gn, h1, …, hm)] on [s] is, for each substitution yielded by
    [conj(g1, …, gn)] on [s] in turn, the whole stream of [conj(h1, …, hm)]
    on it. *)
Theorem conj_app (goals goals' : list Goal) fuel s :
  conj (goals ++ goals') fuel s = bind (conj goals fuel s) (conj goals' fuel).
Proof.
  revert s. induction goals as [|g goals IH]; intros s.
  - simpl. by rewrite append_Done_r.
  - rewrite <- app_comm_cons, !conj_cons, bind_bind.
    apply bind_ext. intros x. apply IH.
Qed.

Lemma disj_fold (goals : list Goal) fuel s :
  disj goals fuel s
  = foldr (fun goal rest => append (goal fuel s) rest) Done goals.
Proof.
  destruct goals as [|g [|g' goals]]; try done. simpl.
  by rewrite append_Done_r.
Qed.

(** X10: [disj] runs its goals one after the other: the stream of
    [disj(g1, …, gn, h1, …, hm)] on [s] is the whole stream of
    [disj(g1, …, gn)] followed by that of [disj(h1, …, hm)]; so [fail] is a
    unit on both sides, and nothing of a later goal shows before an earlier
    one has ended. *)
Theorem disj_app (goals goals' : list Goal) fuel s :
  disj (goals ++ goals') fuel s
  = append (disj goals fuel s) (disj goals' fuel s) ∧
  disj (fail :: goals) fuel s = disj goals fuel s ∧
  disj (goals ++ [fail]) fuel s = disj goals fuel s.
Proof.
  assert (E : ∀ gs hs : list Goal,
            disj (gs ++ hs) fuel s = append (disj gs fuel s) (disj hs fuel s)).
  { intros gs hs. rewrite !disj_fold, foldr_app.
    induction gs as [|g gs IH]; simpl; [done|].
    by rewrite IH, append_assoc. }
  split; [apply E|]. split.
  - by rewrite !disj_fold.
  - rewrite E. simpl. apply append_Done_r.
Qed.

(** X11: [conde] is [disj] over the conjunctions of its clauses, and
    [condi] is [disji] over them: a clause that is an array counts as the
    [conj] of its goals, a bare goal as itself. *)
Theorem conde_condi_clauses (clauses : list clause) fuel s :
  conde clauses fuel s = disj (clause_goal <$> clauses) fuel s ∧
  condi clauses fuel s = disji (clause_goal <$> clauses) fuel s.
Proof.
  split.
  - rewrite disj_fold. destruct clauses as [|c [|c' clauses]]; simpl.
    + done.
    + by rewrite append_Done_r.
    + do 2 f_equal. by rewrite foldr_fmap.
  - rewrite condi_interleaved, disji_interleaved.
    by rewrite <- list_fmap_compose.
Qed.


(** X12: [conda] commits to the first clause whose head yields: when the
    heads of the clauses before an array clause yield nothing on [s] and its
    own head yields, the stream of [conda] is the rest of that clause run
    over every substitution of the head, in order; the clauses after it are
    never run. *)
Theorem conda_commits pre head tail post fuel s value iter :
  Forall (head_fails fuel s) pre → head fuel s = Yield value iter →
  conda (pre ++ Arr (head :: tail) :: post) fuel s
  = bind (head fuel s) (conj tail fuel).
Proof.
  intros Hpre Hhead.
  destruct pre as [|c pre]; [destruct post as [|c' post]|].
  - simpl. change (conj (head :: tail) fuel s = bind (head fuel s) (conj tail fuel)).
    apply conj_cons.
  - by apply (conda_loop_commits_array []) with value iter.
  - replace (conda ((c :: pre) ++ Arr (head :: tail) :: post))
      with (conda_loop ((c :: pre) ++ Arr (head :: tail) :: post))
      by (by destruct pre).
    by apply conda_loop_commits_array with value iter.
Qed.

Lemma conda_commits_witness :
  let s : State := {[ "x" := TVar "x" ]} in
  let x := TVar "x" in
  let head := disj [identical x (TNum 1); identical x (TNum 2)] in
  conda ([Arr [fail; succeed]] ++ Arr [head; succeed] :: [Bare succeed]) 2 s
  = bind (head 2 s) (conj [succeed] 2).
Proof.
  intros s x head.
  apply (conda_commits [Arr [fail; succeed]] head [succeed] [Bare succeed] 2 s
           {[ "x" := TNum 1 ]} (Yield {[ "x" := TNum 2 ]} Done)).
  - by repeat constructor.
  - by vm_compute.
Defined.



Lemma take_loop_pull count : ∀ (iter : Stream) k,
  pull k (take_loop count iter).1
  = if decide (k < count) then pull k iter else None.
Proof.
  induction count as [|count IH]; intros iter k; simpl.
  - by destruct k.
  - destruct iter as [|value rest| |]; simpl; try by case_decide.
    specialize (IH rest). destruct (take_loop count rest) as [st left] eqn:E.
    simpl in *. destruct k as [|k]; [done|]. rewrite IH.
    repeat case_decide; try done; lia.
Qed.

(** X14: [take(count, goal)], run once, yields the first [count] values of
    the stream of [goal] and nothing after them: its [k]-th pull is the
    [k]-th pull of [goal] for [k] below [count], and there is no later
    value. *)
Theorem take_prefix count (goal : Goal) fuel s k :
  pull k (take count goal fuel s).1
  = if decide (k < count) then pull k (goal fuel s) else None.
Proof. apply take_loop_pull. Qed.

Lemma fresh_vars_lookup_Some (ids : list string) k t :
  (list_to_map ((fun id => (id, TVar id)) <$> ids) : State) !! k = Some t →
  t = TVar k.
Proof.
  induction ids as [|i ids IH]; [done|]. simpl.
  destruct (decide (i = k)) as [->|Hne].
  - rewrite lookup_insert_eq. congruence.
  - by rewrite lookup_insert_ne.
Qed.

(** X15: [fresh(ids, gc)] is [callFresh] nested once for each identifier:
    both run [gc] on the incoming substitution with every identifier bound
    to its own variable. *)
Theorem fresh_nested_callFresh (ids : list string) (gc : GoalConstructor)
    fuel s :
  fresh ids gc fuel s = callFresh_each ids gc fuel s.
Proof.
  revert s. induction ids as [|id ids IH]; intros s.
  - unfold fresh, extend. simpl. by rewrite (left_id_L ∅ (∪)).
  - set (vars := list_to_map ((fun id => (id, TVar id)) <$> ids) : State).
    change (gc (extend s (<[id := TVar id]> vars)) fuel
              (extend s (<[id := TVar id]> vars))
            = callFresh_each ids gc fuel (extend s {[id := TVar id]})).
    rewrite <- IH.
    change (fresh ids gc fuel (extend s {[id := TVar id]}))
      with (gc (extend (extend s {[id := TVar id]}) vars) fuel
              (extend (extend s {[id := TVar id]}) vars)).
    assert (extend s (<[id := TVar id]> vars)
            = extend (extend s {[id := TVar id]}) vars) as E; [|by rewrite E].
    rewrite extend_singleton. unfold extend. apply map_eq. intros k.
    rewrite !lookup_union. destruct (decide (k = id)) as [->|Hne].
    + rewrite !lookup_insert_eq.
      destruct (vars !! id) as [t|] eqn:Ev.
      * apply fresh_vars_lookup_Some in Ev as ->. by destruct (s !! id).
      * by destruct (s !! id).
    + by rewrite !lookup_insert_ne.
Qed.

(** ** Interleaving streams that end *)

Section finite_streams.
Context {A : Type}.
Implicit Types (st : stream A) (iters : list (stream A)).

Lemma values_prepend (l : list A) : values (prepend l (@Done A)) = Some l.
Proof. induction l as [|x l IH]; simpl; [done|]. by rewrite IH. Qed.

Lemma values_append st st' vs vs' :
  values st = Some vs → values st' = Some vs' →
  values (append st st') = Some (vs ++ vs').
Proof.
  revert vs. induction st as [|x st IH| |]; intros vs H H'; simpl in *;
    try done.
  - by injection H as <-.
  - destruct (values st) as [vs0|]; [|done]. injection H as <-.
    by rewrite (IH vs0 eq_refl H').
Qed.

Lemma values_returns st vs n : values st = Some vs → returns n st.
Proof.
  revert st vs. induction n as [|n IH]; intros st vs H; [done|].
  destruct st as [|x st| |]; simpl in *; try done.
  destruct (values st) as [vs0|] eqn:E; [|done]. by eapply IH.
Qed.

Lemma roundRobin_rounds_tails n : ∀ iters fuel,
  Forall (returns n) iters → n * (length iters + 1) < fuel →
  ∃ fuel', 0 < fuel' ∧
    roundRobin fuel iters 0 =
    prepend (round_robin_order n iters)
      (roundRobin fuel' (Nat.iter n tails iters) 0).
Proof.
  induction n as [|n IH]; intros iters fuel Hret Hfuel.
  - exists fuel. split; [lia|done].
  - apply returns_S_tails in Hret as [H1 Hn].
    pose proof (roundRobin_round iters [] fuel H1) as Hround.
    simpl in Hround. rewrite Hround by lia.
    pose proof (length_tails iters) as Hlen.
    destruct (IH (tails iters) (fuel - length iters - 1) Hn)
      as (fuel' & Hpos & E); [nia|].
    exists fuel'. split; [done|].
    rewrite E, round_robin_order_S, prepend_app.
    by rewrite Nat.iter_succ_r.
Qed.

Lemma heads_tails_values iters (vss : list (list A)) n :
  Forall2 (fun st vs => values st = Some vs) iters vss →
  Forall (fun vs => length vs < S n) vss →
  ∃ vss', Forall2 (fun st vs => values st = Some vs) (tails iters) vss' ∧
          Forall (fun vs => length vs < n) vss' ∧
          mjoin vss ≡ₚ heads iters ++ mjoin vss'.
Proof.
  induction 1 as [|st vs iters vss Hst _ IH]; intros Hlen.
  - exists []. by repeat split.
  - apply Forall_cons_1 in Hlen as [Hl Hlen].
    destruct (IH Hlen) as (vss' & Hv & Hb & Hp).
    destruct st as [|x st| |]; simpl in Hst; try done.
    + injection Hst as <-. exists vss'. by repeat split.
    + destruct (values st) as [vs0|] eqn:E; [|done]. injection Hst as <-.
      exists (vs0 :: vss'). split; [|split].
      * unfold tails. csimpl. by constructor.
      * constructor; [simpl in Hl; lia | done].
      * unfold heads, nth_round. csimpl. constructor.
        rewrite Hp. fold (heads iters).
        rewrite !app_assoc. f_equiv. apply Permutation_app_comm.
Qed.

Lemma rounds_values n : ∀ iters (vss : list (list A)),
  Forall2 (fun st vs => values st = Some vs) iters vss →
  Forall (fun vs => length vs < n) vss →
  Nat.iter n tails iters = [] ∧ round_robin_order n iters ≡ₚ mjoin vss.
Proof.
  induction n as [|n IH]; intros iters vss Hv Hlen.
  - destruct Hv as [|st vs iters vss _ _]; [done|].
    apply Forall_cons_1 in Hlen as [Hl _]. lia.
  - destruct (heads_tails_values _ _ _ Hv Hlen) as (vss' & Hv' & Hlen' & Hp).
    destruct (IH _ _ Hv' Hlen') as [Hnil Hperm]. split.
    + by rewrite Nat.iter_succ_r.
    + by rewrite round_robin_order_S, Hperm, Hp.
Qed.

Lemma interleaved_values iters (vss : list (list A)) n fuel :
  Forall2 (fun st vs => values st = Some vs) iters vss →
  Forall (fun vs => length vs < n) vss →
  n * (length iters + 1) < fuel →
  ∃ out, values (interleaved fuel iters) = Some out ∧ out ≡ₚ mjoin vss.
Proof.
  intros Hv Hlen Hfuel.
  destruct (rounds_values n _ _ Hv Hlen) as [Hnil Hperm].
  destruct iters as [|st [|st' iters]].
  - apply Forall2_nil_inv_l in Hv as ->. by exists [].
  - apply Forall2_cons_inv_l in Hv as (vs & vss0 & Hst & Hv & ->).
    apply Forall2_nil_inv_l in Hv as ->.
    exists vs. split; [done|]. simpl. by rewrite app_nil_r.
  - unfold interleaved.
    destruct (roundRobin_rounds_tails n (st :: st' :: iters) fuel)
      as (fuel' & Hpos & E); [|done|].
    { eapply Forall_forall. intros it Hit.
      apply list_elem_of_lookup in Hit as [i Hi].
      destruct (Forall2_lookup_l _ _ _ _ _ Hv Hi) as (vs & _ & Hvs).
      by eapply values_returns. }
    rewrite E, Hnil. destruct fuel' as [|fuel']; [lia|]. simpl.
    exists (round_robin_order n (st :: st' :: iters)).
    split; [apply values_prepend | done].
Qed.
End finite_streams.

(** X16: on clauses whose streams all end, [disji] yields what [disj]
    yields, each value as often, in another order: [disj] yields the values
    of the clauses one clause after the other, [disji] a permutation of
    them, and then ends. *)
Theorem disji_permutes_disj (goals : list Goal) (vss : list (list State))
    n fuel s :
  Forall2 (fun goal vs => values (goal fuel s) = Some vs) goals vss →
  Forall (fun vs => length vs < n) vss →
  n * (length goals + 1) < fuel →
  values (disj goals fuel s) = Some (mjoin vss) ∧
  ∃ out, values (disji goals fuel s) = Some out ∧ out ≡ₚ mjoin vss.
Proof.
  intros Hv Hlen Hfuel. split.
  - rewrite disj_fold. clear Hlen Hfuel.
    induction Hv as [|g vs goals vss Hg _ IH]; [done|]. simpl.
    by apply values_append.
  - rewrite disji_interleaved.
    apply (interleaved_values _ vss n); [|done|by rewrite length_fmap].
    by apply Forall2_fmap_l.
Qed.

Lemma disji_permutes_disj_witness :
  let s : State := {[ "x" := TVar "x" ]} in
  let x := TVar "x" in
  let goals :=
    [disj [identical x (TNum 1); identical x (TNum 4); identical x (TNum 6)];
     identical x (TNum 2);
     disj [identical x (TNum 3); identical x (TNum 5)]] in
  let vss : list (list State) :=
    [[ {[ "x" := TNum 1 ]}; {[ "x" := TNum 4 ]}; {[ "x" := TNum 6 ]} ];
     [ {[ "x" := TNum 2 ]} ];
     [ {[ "x" := TNum 3 ]}; {[ "x" := TNum 5 ]} ]] in
  values (disj goals 20 s) = Some (mjoin vss) ∧
  ∃ out, values (disji goals 20 s) = Some out ∧ out ≡ₚ mjoin vss.
Proof.
  intros s x goals vss.
  apply (disji_permutes_disj goals vss 4 20 s).
  - repeat constructor.
  - repeat constructor.
  - simpl. lia.
Defined.

(** ** Type predicates and lists *)

(** X17: [numbero(u)] yields the substitution it was given, unchanged, when
    [u] walks to a number or a bigint, and nothing otherwise; on an unbound
    variable it yields nothing, and it never binds. *)
Theorem numbero_walks fuel u (s : State) r :
  walk fuel u s = Some r →
  numbero u fuel s = if isNumber r then Yield s Done else Done.
Proof.
  intros H. destruct u as [id| | | | | |];
    [simpl; by rewrite H | ..];
    (rewrite walk_nonvar in H by done; by injection H as <-).
Qed.

Lemma numbero_walks_witness :
  let s : State := {[ "x" := TVar "y"; "y" := TBig 3; "z" := TVar "z" ]} in
  numbero (TVar "x") 3 s = (if isNumber (TBig 3) then Yield s Done else Done) ∧
  numbero (TVar "z") 3 s = (if isNumber (TVar "z") then Yield s Done else Done).
Proof.
  intros s. split.
  - apply (numbero_walks 3 (TVar "x") s (TBig 3)). reflexivity.
  - apply (numbero_walks 3 (TVar "z") s (TVar "z")). reflexivity.
Defined.

(** X18: [groundo(x)] never looks at the substitution: on a variable it
    yields nothing, also when the substitution binds the variable to a
    ground term; on any other term it succeeds exactly when no variable
    occurs in the term as it is written. *)
Theorem groundo_ignores_substitution (x : term) fuel (s : State) :
  (∀ id t, x = TVar id → isGround t = true →
     groundo x fuel (<[id := t]> s) = Done) ∧
  (isVar x = false →
     groundo x fuel s = if isGround x then Yield s Done else Done).
Proof.
  split.
  - by intros id t -> _.
  - intros H. unfold groundo, filter. rewrite H. by destruct (isGround x).
Qed.

Lemma groundo_ignores_substitution_witness :
  groundo (TVar "x") 1 (<["x" := TNum 5]> emptyState) = Done ∧
  groundo (TSeq [TNum 1; TSeq [TVar "y"]]) 1 (<["y" := TNum 5]> emptyState)
  = Done.
Proof.
  split.
  - exact (proj1 (groundo_ignores_substitution (TVar "x") 1 emptyState)
             "x" (TNum 5) eq_refl eq_refl).
  - exact (proj2 (groundo_ignores_substitution
                    (TSeq [TNum 1; TSeq [TVar "y"]]) 1
                    (<["y" := TNum 5]> emptyState)) eq_refl).
Defined.

Lemma walk_bound fuel x t (s : State) :
  s !! x = Some t → (∀ y, t ≠ TVar y) → walk (S fuel) (TVar x) s = Some t.
Proof.
  intros Hx Ht. simpl. rewrite Hx. simpl.
  rewrite decide_False by (intros E; by destruct (Ht x)).
  by apply walk_nonvar.
Qed.

(** X19: [conso] builds and takes apart: binding the unbound [list] by
    [conso(e, es, list)], for an array [es] and an [e] that is no variable,
    and then running [conso(car, cdr, list)] with [car] and [cdr] unbound,
    yields exactly one substitution, in which [car] is [e] and [cdr] is
    [es]. *)
Theorem conso_round_trip (e : term) (es : list term) (l x d : string)
    fuel (s : State) :
  0 < fuel → (∀ y, e ≠ TVar y) →
  s !! l = Some (TVar l) → s !! x = Some (TVar x) → s !! d = Some (TVar d) →
  l ≠ x → l ≠ d → x ≠ d →
  ∃ build split,
    conso e (TSeq es) (TVar l) = Ok build ∧
    conso (TVar x) (TVar d) (TVar l) = Ok split ∧
    conj [build; split] fuel s
    = Yield (<[d := TSeq es]> (<[x := e]> (<[l := TSeq (e :: es)]> s))) Done.
Proof.
  intros Hf He Hl Hx Hd Hlx Hld Hxd. do 2 eexists. split; [done|].
  split; [done|]. destruct fuel as [|fuel]; [lia|].
  cbn [conj bind]. unfold identical at 1. cbn [unify].
  rewrite (walk_nonvar _ (TSeq (e :: es))) by done.
  rewrite (walk_self _ _ _ Hl).
  rewrite decide_False by done. rewrite extend_singleton.
  cbn [bind append].
  set (s1 := <[l := TSeq (e :: es)]> s).
  assert (s1 !! d = Some (TVar d)) as Hd1
    by (unfold s1; by rewrite lookup_insert_ne).
  assert (s1 !! x = Some (TVar x)) as Hx1
    by (unfold s1; by rewrite lookup_insert_ne).
  assert (s1 !! l = Some (TSeq (e :: es))) as Hl1
    by (unfold s1; by rewrite lookup_insert_eq).
  rewrite (walk_self _ _ _ Hd1), (walk_bound _ _ _ _ Hl1) by done.
  cbn [conj head tail default from_option id bind].
  rewrite (identical_unbound (S fuel) x e s1) by (done || lia).
  cbn [append bind].
  rewrite (identical_unbound (S fuel) d (TSeq es)); try done; try lia.
  by rewrite lookup_insert_ne.
Qed.

Lemma conso_round_trip_witness :
  let s : State := {[ "l" := TVar "l"; "x" := TVar "x"; "d" := TVar "d" ]} in
  ∃ build split,
    conso (TNum 4) (TSeq [TNum 5; TNum 6]) (TVar "l") = Ok build ∧
    conso (TVar "x") (TVar "d") (TVar "l") = Ok split ∧
    conj [build; split] 1 s
    = Yield (<["d" := TSeq [TNum 5; TNum 6]]>
               (<["x" := TNum 4]>
                  (<["l" := TSeq [TNum 4; TNum 5; TNum 6]]> s))) Done.
Proof.
  intros s.
  apply (conso_round_trip (TNum 4) [TNum 5; TNum 6] "l" "x" "d" 1 s);
    try done; lia.
Defined.



(** ** More generators over shared arrays *)

Lemma gpull_for_of_varList_ext {B} randomUUID (body : nat → heap → gen B)
    (f : nat → heap → B) :
  (∀ r h', body r h' = GYield (f r h') h' GDone) →
  ∀ n fuel a h,
    gpull n (for_of (varList randomUUID fuel a h) body) =
    if decide (n < fuel)
    then Some (f a (pushes randomUUID n a h), pushes randomUUID n a h)
    else None.
Proof.
  intros Hbody. induction n as [|n IH]; intros [|fuel] a h; simpl; try done.
  - by rewrite Hbody.
  - rewrite Hbody. simpl. rewrite IH. repeat case_decide; try done; lia.
Qed.

(** X21: on a variable [v] that is unbound, [firsto(u, v)] and
    [membero(u, v)] are the same generator: pull for pull they yield the same
    state with the same array in it. *)
Theorem firsto_is_membero_unbound (randomUUID : nat → string) (u : term)
    (id : string) fuel (s : State) (h : heap) n :
  s !! id = Some (TVar id) →
  gpull n (firsto randomUUID u (TVar id) fuel s h)
  = gpull n (membero randomUUID u (TVar id) fuel s h).
Proof.
  intros Hid. destruct fuel as [|fuel]; [by destruct n|].
  rewrite (membero_unbound_pull _ _ id id) by (by apply walk_self).
  unfold firsto. destruct (alloc [u] h) as [a h1] eqn:E.
  assert (a = length (arrays h)) as <- by (by injection E).
  rewrite (gpull_for_of_varList_ext randomUUID _
             (fun r _ => <[id := Ref r]> (lift s))); [done|].
  intros r h'. unfold identical_shared. by rewrite (walk_self _ _ _ Hid).
Qed.

Lemma firsto_is_membero_unbound_witness :
  gpull 2 (firsto pretty (TNum 5) (TVar "c") 4 {[ "c" := TVar "c" ]} emptyHeap)
  = gpull 2 (membero pretty (TNum 5) (TVar "c") 4 {[ "c" := TVar "c" ]} emptyHeap).
Proof. by apply firsto_is_membero_unbound. Defined.

(** X22: on an unbound variable [v], the [k]-th state of [lasto(u, v)],
    counting from 0, binds [v] to [k] fresh variables followed by [u].  The
    list is a copy: the state holds no array of [varList], and reads the same
    whatever is pushed later. *)
Theorem lasto_unbound (randomUUID : nat → string) (u : term) (id : string)
    fuel k (s : State) (h : heap) :
  s !! id = Some (TVar id) → k < fuel →
  let t := <[id := TSeq (freshVars randomUUID (uuids h) k ++ [u])]> s in
  (∃ hk, gpull k (lasto randomUUID u (TVar id) fuel s h) = Some (lift t, hk)) ∧
  ∀ h', observe h' (lift t) = t.
Proof.
  intros Hid Hk t. split; [|intros h'; apply observe_lift].
  unfold lasto.
  pose proof (contents_alloc_new [] h) as C.
  pose proof (alloc_length [] h) as L.
  destruct (alloc [] h) as [a h1] eqn:E.
  assert (uuids h1 = uuids h) as Eu by (injection E as _ <-; done).
  assert (a = length (arrays h)) as Ea by (by injection E).
  simpl in C, L.
  rewrite (gpull_for_of_varList_ext randomUUID _
             (fun r h' => lift (<[id := TSeq (contents h' r ++ [u])]> s))).
  - rewrite decide_True by done. eexists. f_equal. f_equal.
    unfold t. rewrite contents_pushes by lia. by rewrite C, Eu.
  - intros r h'. rewrite identical_unbound; [done|lia|done|done].
Qed.

Lemma lasto_unbound_witness :
  let s : State := {[ "c" := TVar "c" ]} in
  let t := <["c" := TSeq (freshVars pretty 0 2 ++ [TNum 5])]> s in
  (∃ hk, gpull 2 (lasto pretty (TNum 5) (TVar "c") 3 s emptyHeap)
         = Some (lift t, hk)) ∧
  ∀ h', observe h' (lift t) = t.
Proof.
  intros s. apply (lasto_unbound pretty (TNum 5) "c" 3 2 s emptyHeap).
  - reflexivity.
  - lia.
Defined.

(** X23: [listo(x)] for a variable [x].  When [x] walks to an unbound
    variable [v], the [k]-th state, counting from 0, binds [v] to the array
    that holds, at that moment, [k] fresh variables; when [x] walks to an
    array, the state is yielded once as it is; when it walks to anything
    else, nothing is yielded. *)
Theorem listo_walks (randomUUID : nat → string) (id : string) fuel
    (s : State) (h : heap) r :
  walk fuel (TVar id) s = Some r →
  match r with
  | TVar v =>
      ∀ k, k < fuel →
        ∃ st hk,
          gpull k (listo randomUUID (TVar id) fuel s h) = Some (st, hk) ∧
          observe hk st = <[v := TSeq (freshVars randomUUID (uuids h) k)]> s
  | TSeq _ => listo randomUUID (TVar id) fuel s h = GYield (lift s) h GDone
  | _ => listo randomUUID (TVar id) fuel s h = GDone h
  end.
Proof.
  intros Hw. unfold listo. rewrite Hw.
  destruct r as [v| | | | | |l]; try done.
  intros k Hk.
  pose proof (contents_alloc_new [] h) as C.
  pose proof (alloc_length [] h) as L.
  destruct (alloc [] h) as [a h1] eqn:E.
  assert (uuids h1 = uuids h) as Eu by (injection E as _ <-; done).
  assert (a = length (arrays h)) as Ea by (by injection E).
  simpl in C, L.
  rewrite (gpull_for_of_varList randomUUID
             (fun r _ => <[v := Ref r]> (lift s))).
  rewrite decide_True by done. do 2 eexists. split; [done|].
  rewrite observe_insert_ref, observe_lift, contents_pushes by lia.
  by rewrite C, Eu.
Qed.

Lemma listo_walks_witness :
  ∃ st hk,
    gpull 2 (listo pretty (TVar "x") 3 {[ "x" := TVar "x" ]} emptyHeap)
    = Some (st, hk) ∧
    observe hk st = <["x" := TSeq (freshVars pretty 0 2)]> {[ "x" := TVar "x" ]}.
Proof.
  apply (listo_walks pretty "x" 3 {[ "x" := TVar "x" ]} emptyHeap (TVar "x")).
  - reflexivity.
  - lia.
Defined.

Lemma membero_elems_pull (x : string) fuel (s : State) (h : heap) :
  0 < fuel → s !! x = Some (TVar x) →
  ∀ (list : list term) k,
    Forall (fun e => ∀ y, e ≠ TVar y) list →
    gpull k (membero_elems (TVar x) list fuel s h)
    = (fun e => (lift (<[x := e]> s), h)) <$> list !! k.
Proof.
  intros Hf Hx. destruct fuel as [|fuel]; [lia|].
  induction list as [|e list IH]; intros k Hall; [done|].
  apply Forall_cons_1 in Hall as [He Hall].
  cbn [membero_elems]. rewrite unify_bind_left by done.
  destruct k as [|k]; simpl; [done|]. by apply IH.
Qed.

(** X24: [membero(x, list)] for an unbound variable [x] and an array whose
    elements are no variables yields one state for each element, in the order
    of the array, binding [x] to that element, and then ends; no array is
    created. *)
Theorem membero_array (randomUUID : nat → string) (x : string)
    (list : list term) fuel (s : State) (h : heap) k :
  0 < fuel → s !! x = Some (TVar x) →
  Forall (fun e => ∀ y, e ≠ TVar y) list →
  gpull k (membero randomUUID (TVar x) (TSeq list) fuel s h)
  = (fun e => (lift (<[x := e]> s), h)) <$> list !! k.
Proof. intros. by apply membero_elems_pull. Qed.

Lemma membero_array_witness :
  gpull 1 (membero pretty (TVar "x") (TSeq [TNum 1; TNum 2; TNum 3]) 1
             {[ "x" := TVar "x" ]} emptyHeap)
  = (fun e => (lift (<["x" := e]> {[ "x" := TVar "x" ]}), emptyHeap))
      <$> [TNum 1; TNum 2; TNum 3] !! 1.
Proof.
  apply membero_array; [lia | done |].
  repeat constructor; done.
Defined.






Lemma newVars_fresh randomUUID n : ∀ h,
  newVars randomUUID n h
  = (freshVars randomUUID (uuids h) n, Heap (arrays h) (uuids h + n)).
Proof.
  unfold freshVars. induction n as [|n IH]; intros [a u]; simpl.
  - by rewrite Nat.add_0_r.
  - rewrite IH. simpl. do 2 f_equal. lia.
Qed.

(** X26: [ntho(n, list, el)] for a number [n] that is not negative and an
    unbound variable [list] is 0-based: its [j]-th state, counting from 0,
    binds [list] to the array that holds, at that moment, [n] fresh
    variables, then [el], then [j] more fresh variables, so [el] is at
    position [n]. *)
Theorem ntho_index_unbound_list (randomUUID : nat → string) (n : nat)
    (lid : string) (el : term) fuel j (s : State) (h : heap) :
  s !! lid = Some (TVar lid) → j < fuel →
  let elems := freshVars randomUUID (uuids h) n ++ [el]
               ++ freshVars randomUUID (uuids h + n) j in
  ∃ g,
    ntho randomUUID (TNum (Z.of_nat n)) (TVar lid) el = Ok g ∧
    ∃ st hj,
    gpull j (g fuel s h) = Some (st, hj) ∧
    observe hj st = <[lid := TSeq elems]> s ∧
    elems !! n = Some el.
Proof.
  intros Hl Hj elems. eexists. split; [done|].
  cbv beta iota. rewrite Nat2Z.id, newVars_fresh.
  set (h1 := Heap (arrays h) (uuids h + n)).
  pose proof (contents_alloc_new (freshVars randomUUID (uuids h) n ++ [el]) h1)
    as C.
  pose proof (alloc_length (freshVars randomUUID (uuids h) n ++ [el]) h1) as L.
  destruct (alloc _ h1) as [a h2] eqn:E.
  assert (uuids h2 = uuids h + n) as Eu by (injection E as _ <-; done).
  assert (a = length (arrays h1)) as Ea by (by injection E).
  simpl in C, L.
  rewrite (gpull_for_of_varList_ext randomUUID _
             (fun r _ => <[lid := Ref r]> (lift s))).
  - rewrite decide_True by done. do 2 eexists. split; [reflexivity|].
    rewrite observe_insert_ref, observe_lift.
    rewrite contents_pushes by (rewrite Ea; simpl; lia).
    rewrite C, Eu. unfold elems. rewrite <- app_assoc. split; [done|].
    rewrite lookup_app_r; unfold freshVars; rewrite length_fmap, length_seq;
      [|lia].
    by rewrite Nat.sub_diag.
  - intros r h'. unfold identical_shared. destruct fuel as [|fuel]; [lia|].
    by rewrite (walk_self _ _ _ Hl).
Qed.

Lemma ntho_index_unbound_list_witness :
  let s : State := {[ "list" := TVar "list" ]} in
  let elems := freshVars pretty 0 1 ++ [TStr "f"] ++ freshVars pretty (0 + 1) 2 in
  ∃ g,
    ntho pretty (TNum (Z.of_nat 1)) (TVar "list") (TStr "f") = Ok g ∧
    ∃ st hj,
    gpull 2 (g 3 s emptyHeap) = Some (st, hj) ∧
    observe hj st = <["list" := TSeq elems]> s ∧
    elems !! 1 = Some (TStr "f").
Proof.
  intros s.
  apply (ntho_index_unbound_list pretty 1 "list" (TStr "f") 3 2 s emptyHeap).
  - reflexivity.
  - lia.
Defined.

(** ** [appendo] on an array *)

Lemma pull_prepend_Done {A} (l : list A) : ∀ k, pull k (prepend l Done) = l !! k.
Proof. induction l as [|x l IH]; intros [|k]; simpl; auto. Qed.

(** X27: [appendo(p, q, list)] for two different variables and an array
    yields every way of splitting the array in two, shortest prefix first:
    the split with a prefix of [k] elements is the [k]-th state, it sets [p]
    to the prefix and [q] to the rest whatever they were bound to before, and
    after the split with the whole array as prefix the stream ends. *)
Theorem appendo_splits (p q : string) (list : list term) fuel (s : State) :
  p ≠ q →
  let st := appendo_array (TVar p) (TVar q) list fuel s in
  (∀ pre suf, pre ++ suf = list →
     pull (length pre) st = Some (<[q := TSeq suf]> (<[p := TSeq pre]> s))) ∧
  (∀ k t, pull k st = Some t →
     ∃ pre suf, pre ++ suf = list ∧ length pre = k ∧
       t !! p = Some (TSeq pre) ∧ t !! q = Some (TSeq suf)) ∧
  pull (S (length list)) st = None.
Proof.
  intros Hpq st.
  assert (∀ k, pull k st =
               (fun i => <[q := TSeq (skipn i list)]>
                           (<[p := TSeq (firstn i list)]> s))
                 <$> seq 0 (S (length list)) !! k) as Hpull.
  { intros k. unfold st, appendo_array. rewrite pull_prepend_Done.
    rewrite list_lookup_fmap. destruct (seq 0 (S (length list)) !! k); [|done].
    simpl. unfold extend.
    by rewrite <- insert_union_l, <- insert_union_singleton_l. }
  split; [|split].
  - intros pre suf <-. rewrite Hpull, lookup_seq_lt by (rewrite length_app; lia).
    simpl. rewrite firstn_app, skipn_app, Nat.sub_diag, firstn_all, skipn_all.
    simpl. by rewrite app_nil_r.
  - intros k t. rewrite Hpull. intros Hk.
    apply fmap_Some in Hk as (i & Hi & ->).
    apply lookup_seq in Hi as [-> Hi]. simpl in *.
    exists (firstn k list), (skipn k list).
    rewrite firstn_skipn, length_firstn, lookup_insert_ne by done.
    rewrite !lookup_insert_eq. repeat split; lia.
  - rewrite Hpull, lookup_seq_ge; [done|]. lia.
Qed.

Lemma appendo_splits_witness :
  let st := appendo_array (TVar "p") (TVar "q") [TNum 1; TNum 2] 0 emptyState in
  (∀ pre suf, pre ++ suf = [TNum 1; TNum 2] →
     pull (length pre) st
     = Some (<["q" := TSeq suf]> (<["p" := TSeq pre]> emptyState))) ∧
  (∀ k t, pull k st = Some t →
     ∃ pre suf, pre ++ suf = [TNum 1; TNum 2] ∧ length pre = k ∧
       t !! "p" = Some (TSeq pre) ∧ t !! "q" = Some (TSeq suf)) ∧
  pull (S (length [TNum 1; TNum 2])) st = None.
Proof. by apply appendo_splits. Defined.

Lemma unify_bind_right fuel x r (s : State) :
  s !! x = Some (TVar x) → (∀ y, r ≠ TVar y) →
  unify (S fuel) r (TVar x) s = Some (Some (<[x := r]> s)).
Proof.
  intros Hx Hr. cbn [unify].
  rewrite (walk_self _ _ _ Hx), (walk_nonvar _ _ _ Hr).
  rewrite decide_False by (intros E; by destruct (Hr x)).
  rewrite <- extend_singleton. destruct r; try done. by destruct (Hr id).
Qed.

(** X28: the modes of [appendo] on ground arrays.  With prefix, suffix and
    list ground it succeeds once, leaving the state as it is, when the list
    is the prefix followed by the suffix, and fails otherwise.  With the
    suffix an unbound variable it binds the suffix to what follows the
    prefix in the list, and fails when the list does not start with the
    prefix; with the prefix an unbound variable it binds the prefix to what
    stands before the suffix, and fails when the list does not end with the
    suffix. *)
Theorem appendo_ground_modes (ps ss list : list term) (p q : string)
    (s : State) :
  forallb isGround ps = true → forallb isGround ss = true →
  forallb isGround list = true →
  s !! p = Some (TVar p) → s !! q = Some (TVar q) →
  ∃ n, ∀ fuel, n ≤ fuel →
    appendo_array (TSeq ps) (TSeq ss) list fuel s
    = (if decide (ps ++ ss = list) then Yield s Done else Done) ∧
    (∀ suf, list = ps ++ suf →
       appendo_array (TSeq ps) (TVar q) list fuel s
       = Yield (<[q := TSeq suf]> s) Done) ∧
    ((∀ suf, list ≠ ps ++ suf) →
       appendo_array (TSeq ps) (TVar q) list fuel s = Done) ∧
    (∀ pre, list = pre ++ ss →
       appendo_array (TVar p) (TSeq ss) list fuel s
       = Yield (<[p := TSeq pre]> s) Done) ∧
    ((∀ pre, list ≠ pre ++ ss) →
       appendo_array (TVar p) (TSeq ss) list fuel s = Done).
Proof.
  intros Hps Hss Hl Hp Hq.
  assert (forallb isGround (ps ++ ss) = true) as Hpss.
  { rewrite forallb_app. by rewrite Hps, Hss. }
  assert (forallb isGround (firstn (length ps) list) = true) as Hfl.
  { rewrite <- (firstn_skipn (length ps) list), forallb_app in Hl.
    by apply andb_prop in Hl as [? _]. }
  assert (forallb isGround (skipn (length list - length ss) list) = true) as Hsl.
  { rewrite <- (firstn_skipn (length list - length ss) list), forallb_app in Hl.
    by apply andb_prop in Hl as [_ ?]. }
  destruct (unify_ground s (TSeq (ps ++ ss)) (TSeq list) Hpss Hl) as [n1 H1].
  destruct (unify_ground s (TSeq (firstn (length ps) list)) (TSeq ps) Hfl Hps)
    as [n2 H2].
  destruct (decide (length list < length ss)) as [Hlt|Hge].
  - exists (S (n1 `max` n2)). intros fuel Hfuel.
    split; [|split; [|split; [|split]]].
    + unfold appendo_array, identical. rewrite H1 by lia.
      destruct (decide (TSeq (ps ++ ss) = TSeq list)) as [E1|E1];
        destruct (decide (ps ++ ss = list)) as [E2|E2]; try done; congruence.
    + intros suf ->. cbn [appendo_array conj]. unfold identical at 1.
      rewrite H2 by lia. rewrite firstn_app, Nat.sub_diag, firstn_all.
      simpl. rewrite app_nil_r, decide_True by done. simpl.
      rewrite skipn_app, Nat.sub_diag, skipn_all. simpl.
      destruct fuel as [|fuel]; [lia|]. unfold identical.
      rewrite unify_bind_right by done. by rewrite append_Done_r.
    + intros Hno. cbn [appendo_array conj]. unfold identical at 1.
      rewrite H2 by lia. rewrite decide_False; [done|].
      intros [= E]. apply (Hno (skipn (length ps) list)).
      transitivity (firstn (length ps) list ++ skipn (length ps) list);
        [by rewrite firstn_skipn | by rewrite E].
    + intros pre ->. rewrite length_app in Hlt. lia.
    + intros _. cbn [appendo_array]. by rewrite decide_True.
  - assert (length (skipn (length list - length ss) list) = length ss) as Hlen.
    { rewrite length_skipn. lia. }
    destruct (unify_elems_ground s (skipn (length list - length ss) list))
      with (vs := ss) as [n3 H3]; [|done..|].
    { apply Forall_forall. intros u _ v Hu Hv. by apply unify_ground. }
    exists (S ((n1 `max` n2) `max` n3)). intros fuel Hfuel.
    split; [|split; [|split; [|split]]].
    + unfold appendo_array, identical. rewrite H1 by lia.
      destruct (decide (TSeq (ps ++ ss) = TSeq list)) as [E1|E1];
        destruct (decide (ps ++ ss = list)) as [E2|E2]; try done; congruence.
    + intros suf ->. cbn [appendo_array conj]. unfold identical at 1.
      rewrite H2 by lia. rewrite firstn_app, Nat.sub_diag, firstn_all.
      simpl. rewrite app_nil_r, decide_True by done. simpl.
      rewrite skipn_app, Nat.sub_diag, skipn_all. simpl.
      destruct fuel as [|fuel]; [lia|]. unfold identical.
      rewrite unify_bind_right by done. by rewrite append_Done_r.
    + intros Hno. cbn [appendo_array conj]. unfold identical at 1.
      rewrite H2 by lia. rewrite decide_False; [done|].
      intros [= E]. apply (Hno (skipn (length ps) list)).
      transitivity (firstn (length ps) list ++ skipn (length ps) list);
        [by rewrite firstn_skipn | by rewrite E].
    + intros pre E. cbn [appendo_array]. rewrite decide_False by done.
      rewrite H3 by lia. subst list.
      rewrite length_app, Nat.add_sub.
      rewrite skipn_app, Nat.sub_diag, skipn_all, firstn_app, Nat.sub_diag,
        firstn_all. simpl. rewrite app_nil_r, decide_True by done.
      apply identical_unbound; [lia|done..].
    + intros Hno. cbn [appendo_array]. rewrite decide_False by done.
      rewrite H3 by lia. rewrite decide_False; [done|].
      intros E. apply (Hno (firstn (length list - length ss) list)).
      transitivity (firstn (length list - length ss) list
                    ++ skipn (length list - length ss) list);
        [by rewrite firstn_skipn | by rewrite E].
Qed.

Lemma appendo_ground_modes_witness :
  let s : State := {[ "p" := TVar "p"; "q" := TVar "q" ]} in
  let ps := [TNum 1] in let ss := [TNum 2; TNum 3] in
  let list := [TNum 1; TNum 2; TNum 3] in
  ∃ n, ∀ fuel, n ≤ fuel →
    appendo_array (TSeq ps) (TSeq ss) list fuel s
    = (if decide (ps ++ ss = list) then Yield s Done else Done) ∧
    (∀ suf, list = ps ++ suf →
       appendo_array (TSeq ps) (TVar "q") list fuel s
       = Yield (<["q" := TSeq suf]> s) Done) ∧
    ((∀ suf, list ≠ ps ++ suf) →
       appendo_array (TSeq ps) (TVar "q") list fuel s = Done) ∧
    (∀ pre, list = pre ++ ss →
       appendo_array (TVar "p") (TSeq ss) list fuel s
       = Yield (<["p" := TSeq pre]> s) Done) ∧
    ((∀ pre, list ≠ pre ++ ss) →
       appendo_array (TVar "p") (TSeq ss) list fuel s = Done).
Proof.
  intros s ps ss list.
  apply (appendo_ground_modes ps ss list "p" "q" s); reflexivity.
Defined.

(** ** [lengtho] on two variables *)

Lemma observe_insert_val h (s : HState) id t :
  observe h (<[id := Val t]> s) = <[id := t]> (observe h s).
Proof. unfold observe. by rewrite fmap_insert. Qed.

Lemma gpull_lengtho_loop le (g : gen HState) : ∀ k len,
  gpull k (lengtho_loop g le len)
  = (fun '(t, h) => (<[le := Val (TBig (len + Z.of_nat k))]> t, h))
      <$> gpull k g.
Proof.
  induction g as [h|t h resume IH|e|]; intros k len; try done.
  destruct k as [|k]; simpl.
  - by rewrite Z.add_0_r.
  - rewrite IH.
    by replace (len + 1 + Z.of_nat k)%Z with (len + Z.of_nat (S k))%Z by lia.
Qed.

(** X29: [lengtho(list, length)] for two unbound variables counts in
    bigints: its [k]-th state, counting from 0, binds [list] to the array
    that holds, at that moment, [k] fresh variables, and [length] to the
    bigint [k]. *)
Theorem lengtho_unbound (randomUUID : nat → string) (l n : string) fuel k
    (s : State) (h : heap) :
  s !! l = Some (TVar l) → s !! n = Some (TVar n) → k < fuel →
  ∃ st hk,
    gpull k (lengtho_vars randomUUID fuel (TVar l) (TVar n) s h)
    = Some (st, hk) ∧
    observe hk st
    = <[n := TBig (Z.of_nat k)]>
        (<[l := TSeq (freshVars randomUUID (uuids h) k)]> s).
Proof.
  intros Hl Hn Hk. destruct fuel as [|fuel]; [lia|].
  cbn [lengtho_vars]. rewrite (walk_self _ _ _ Hl), (walk_self _ _ _ Hn).
  rewrite gpull_lengtho_loop. unfold listo. rewrite (walk_self _ _ _ Hl).
  pose proof (contents_alloc_new [] h) as C.
  pose proof (alloc_length [] h) as L.
  destruct (alloc [] h) as [a h1] eqn:E.
  assert (uuids h1 = uuids h) as Eu by (injection E as _ <-; done).
  assert (a = length (arrays h)) as Ea by (by injection E).
  simpl in C, L.
  rewrite (gpull_for_of_varList randomUUID
             (fun r _ => <[l := Ref r]> (lift s))).
  rewrite decide_True by done. do 2 eexists. split; [reflexivity|].
  rewrite observe_insert_val, observe_insert_ref, observe_lift.
  rewrite contents_pushes by lia.
  by rewrite C, Eu.
Qed.

Lemma lengtho_unbound_witness :
  let s : State := {[ "l" := TVar "l"; "n" := TVar "n" ]} in
  ∃ st hk,
    gpull 2 (lengtho_vars pretty 3 (TVar "l") (TVar "n") s emptyHeap)
    = Some (st, hk) ∧
    observe hk st
    = <["n" := TBig (Z.of_nat 2)]>
        (<["l" := TSeq (freshVars pretty (uuids emptyHeap) 2)]> s).
Proof.
  intros s. apply (lengtho_unbound pretty "l" "n" 3 2 s emptyHeap).
  - reflexivity.
  - reflexivity.
  - lia.
Defined.


